(** * SecureShield: the rate-limit window and the input sanitizer

  A shallow embedding of the two pieces of logic of the simulator that
  carry state or compute something:

  - [RateLimitingSimulator]: the three React state cells [requests],
    [blocked], [timeToReset], the click handler [handleRequest] and the
    one-second interval callback installed by the effect;
  - [InputSanitizationSimulator]: the table [DANGEROUS_PATTERNS] and
    [sanitizeInput], together with the part of the ECMAScript regular
    expression semantics that the eight patterns and the four escaping
    passes exercise ([RegExp.prototype.test], global
    [String.prototype.replace], backtracking matching, [lastIndex]). *)

From Stdlib Require Import List ZArith NArith Bool Lia String Ascii PeanoNat.
From Stdlib Require Import DecimalString.
Import ListNotations.

(* ================================================================== *)
(** ** Rate limiting *)
(* ================================================================== *)

Module RateLimit.

Local Open Scope Z_scope.

Definition MAX_REQUESTS : Z := 10.
Definition RESET_TIME : Z := 30.

(** The three [useState] cells of the component.  JavaScript numbers are
    modelled as [Z]: the counters only ever hold small integers. *)
Record State : Type := mkState {
  requests : Z;
  blocked : bool;
  timeToReset : Z
}.

(** [useState(0)], [useState(false)], [useState(0)]. *)
Definition initial : State := mkState 0 false 0.

(** [handleRequest]: the early [return] when [blocked], otherwise
    [newCount = requests + 1] is stored and reaching [MAX_REQUESTS] sets
    [blocked] and [timeToReset].  The log lines are not part of the state
    modelled here. *)
Definition handleRequest (s : State) : State :=
  if blocked s then s
  else
    let newCount := requests s + 1 in
    if MAX_REQUESTS <=? newCount
    then mkState newCount true RESET_TIME
    else mkState newCount (blocked s) (timeToReset s).

(** One firing of the interval of the effect.  The effect installs the
    interval only under [blocked && timeToReset > 0]; the callback is the
    updater [prev => ...] of [setTimeToReset], which at [prev <= 1] also
    clears [blocked] and [requests]. *)
Definition tick (s : State) : State :=
  if blocked s && (0 <? timeToReset s) then
    if timeToReset s <=? 1
    then mkState 0 false 0
    else mkState (requests s) (blocked s) (timeToReset s - 1)
  else s.

(** The two events the component reacts to. *)
Inductive Op : Type := RecordEvent | Tick.

Definition step (o : Op) (s : State) : State :=
  match o with
  | RecordEvent => handleRequest s
  | Tick => tick s
  end.

(** Events are processed oldest first. *)
Definition run (ops : list Op) (s : State) : State :=
  fold_left (fun st o => step o st) ops s.

Inductive reachable : State -> Prop :=
| reach_initial : reachable initial
| reach_step : forall o s, reachable s -> reachable (step o s).

(** [n] firings of the interval in a row. *)
Definition ticks (n : nat) (s : State) : State := Nat.iter n tick s.

(** [n] clicks in a row. *)
Definition clicks (n : nat) (s : State) : State := Nat.iter n handleRequest s.

(** What every reachable state satisfies: while counting, the counter is
    below the limit and the timer is idle; while blocked, the counter sits
    at the limit and the timer is between 1 and [RESET_TIME]. *)
Definition shape (s : State) : Prop :=
  (blocked s = false /\ 0 <= requests s < MAX_REQUESTS /\ timeToReset s = 0)
  \/ (blocked s = true /\ requests s = MAX_REQUESTS
      /\ 0 < timeToReset s <= RESET_TIME).

End RateLimit.

(* ================================================================== *)
(** ** JavaScript strings and regular expressions *)
(* ================================================================== *)

Module Js.

(** A JavaScript string is a sequence of UTF-16 code units. *)
Definition char : Type := N.
Definition str : Type := list char.

(** An ASCII literal of the source as a sequence of code units. *)
Definition lit (s : string) : str :=
  map N_of_ascii (list_ascii_of_string s).

Local Open Scope N_scope.

Definition between (lo hi c : char) : bool := (lo <=? c) && (c <=? hi).

(** The character sets that occur in the patterns. *)
Inductive CharSet : Type :=
| CsChar (c : char)   (* a pattern character *)
| CsAny               (* [\s\S] *)
| CsDot               (* .  (no s flag) *)
| CsWord              (* \w *)
| CsSpace             (* \s *)
| CsDigit.            (* \d *)

(** LineTerminator: LF, CR, LS, PS. *)
Definition isLineTerminator (c : char) : bool :=
  (c =? 10) || (c =? 13) || (c =? 8232) || (c =? 8233).

(** WhiteSpace: TAB, VT, FF, ZWNBSP and the space separators (Zs). *)
Definition isWhiteSpace (c : char) : bool :=
  (c =? 9) || (c =? 11) || (c =? 12) || (c =? 65279)
  || (c =? 32) || (c =? 160) || (c =? 5760) || between 8192 8202 c
  || (c =? 8239) || (c =? 8287) || (c =? 12288).

Definition isDigit (c : char) : bool := between 48 57 c.

Definition isWordChar (c : char) : bool :=
  between 97 122 c || between 65 90 c || isDigit c || (c =? 95).

(** Canonicalize of a code unit under the i flag without the u flag, as far
    as a comparison with an ASCII pattern character can observe it: the
    lower-case ASCII letters go to upper case; a code unit from 128 on is
    never mapped to an ASCII one, so it is left where it is. *)
Definition canonicalize (c : char) : char :=
  if between 97 122 c then c - 32 else c.

Definition cs_mem (ignoreCase : bool) (cs : CharSet) (c : char) : bool :=
  match cs with
  | CsChar x =>
      if ignoreCase then canonicalize c =? canonicalize x else c =? x
  | CsAny => true
  | CsDot => negb (isLineTerminator c)
  | CsWord => isWordChar c
  | CsSpace => isWhiteSpace c || isLineTerminator c
  | CsDigit => isDigit c
  end.

(** The pattern syntax used by the source.  Every quantifier of the source
    except [?] stands on a single character set. *)
Inductive Regex : Type :=
| Empty
| Atom (cs : CharSet)
| Seq (a b : Regex)
| Alt (a b : Regex)                   (* a|b *)
| Star (greedy : bool) (cs : CharSet) (* cs*  and  cs*? *)
| Plus (cs : CharSet)                 (* cs+ *)
| Opt (a : Regex).                    (* a? *)

Definition seqs (l : list Regex) : Regex := fold_right Seq Empty l.

(** A run of pattern characters. *)
Definition text (s : string) : Regex :=
  seqs (map (fun c => Atom (CsChar c)) (lit s)).

Definition alts (r : Regex) (l : list Regex) : Regex :=
  fold_left (fun acc x => Alt acc x) l r.

(** *** Backtracking matcher

    The matcher of the language specification in continuation-passing
    form: [m r k s] tries [r] at the front of [s] and hands what is left to
    the continuation [k]; the first success in priority order wins.  The
    answer is the text after the end of the whole match. *)
Definition Cont : Type := str -> option str.

Fixpoint star_greedy (p : char -> bool) (k : Cont) (s : str) : option str :=
  match s with
  | c :: s' =>
      if p c then
        match star_greedy p k s' with
        | Some r => Some r
        | None => k s
        end
      else k s
  | [] => k []
  end.

Fixpoint star_lazy (p : char -> bool) (k : Cont) (s : str) : option str :=
  match k s with
  | Some r => Some r
  | None =>
      match s with
      | c :: s' => if p c then star_lazy p k s' else None
      | [] => None
      end
  end.

Fixpoint m (ic : bool) (r : Regex) (k : Cont) (s : str) : option str :=
  match r with
  | Empty => k s
  | Atom cs =>
      match s with
      | c :: s' => if cs_mem ic cs c then k s' else None
      | [] => None
      end
  | Seq a b => m ic a (m ic b k) s
  | Alt a b =>
      match m ic a k s with
      | Some r => Some r
      | None => m ic b k s
      end
  | Star g cs =>
      (if g then star_greedy else star_lazy) (cs_mem ic cs) k s
  | Plus cs =>
      match s with
      | c :: s' =>
          if cs_mem ic cs c then star_greedy (cs_mem ic cs) k s' else None
      | [] => None
      end
  | Opt a =>
      match m ic a k s with
      | Some r => Some r
      | None => k s
      end
  end.

(** *** RegExp objects

    Every regular expression literal of the source carries the g flag, so
    the flag is not a field; [lastIndex] is the mutable property that
    [test] reads and writes. *)
Record RegExp : Type := mkRegExp {
  source : Regex;
  ignoreCase : bool;
  lastIndex : nat
}.

Definition set_lastIndex (re : RegExp) (i : nat) : RegExp :=
  mkRegExp (source re) (ignoreCase re) i.

(** One attempt at the front of [s]: the text after the match. *)
Definition matchAt (re : RegExp) (s : str) : option str :=
  m (ignoreCase re) (source re) Some s.

(** The scan of RegExpBuiltinExec: the first position, counted from the
    start of [s], where an attempt succeeds, and the text after it. *)
Fixpoint search (mt : str -> option str) (s : str) : option (nat * str) :=
  match mt s with
  | Some rest => Some (O, rest)
  | None =>
      match s with
      | [] => None
      | _ :: s' =>
          match search mt s' with
          | Some (i, rest) => Some (S i, rest)
          | None => None
          end
      end
  end.

(** [re.test(S)] of a global expression: the scan starts at [lastIndex];
    a success leaves [lastIndex] at the end of the match, a failure (or a
    [lastIndex] beyond the string) leaves it at 0. *)
Definition test (re : RegExp) (S : str) : bool * RegExp :=
  if (List.length S <? lastIndex re)%nat then (false, set_lastIndex re 0)
  else
    match search (matchAt re) (skipn (lastIndex re) S) with
    | Some (_, rest) =>
        (true, set_lastIndex re (List.length S - List.length rest))
    | None => (false, set_lastIndex re 0)
    end.

(** The text produced by [S.replace(re, rep)] for a global [re] and a
    replacement without [$]: scanning from index 0, each match found is
    replaced, the scan resumes at its end (one further after an empty
    match), and the text between matches is kept.  [skip] counts the code
    units of the current match that are still to be dropped. *)
Fixpoint replace_from (mt : str -> option str) (rep : str)
         (skip : nat) (s : str) {struct s} : str :=
  match s with
  | [] =>
      match skip with
      | O => match mt [] with Some _ => rep | None => [] end
      | S _ => []
      end
  | c :: s' =>
      match skip with
      | S k => replace_from mt rep k s'
      | O =>
          match mt s with
          | None => c :: replace_from mt rep 0 s'
          | Some rest =>
              match (List.length s - List.length rest)%nat with
              | O => rep ++ c :: replace_from mt rep 0 s'
              | S k => rep ++ replace_from mt rep k s'
              end
          end
      end
  end.

(** [S.replace(re, rep)]: the result and the expression afterwards; the
    last, failing scan leaves [lastIndex] at 0. *)
Definition replace (re : RegExp) (S rep : str) : str * RegExp :=
  (replace_from (matchAt re) rep 0 S, set_lastIndex re 0).

(** *** The language of a pattern

    The set of texts a pattern can consume, without regard to priority.
    It is what the statements about "a match of the pattern" refer to. *)
Fixpoint lang (ic : bool) (r : Regex) (u : str) : Prop :=
  match r with
  | Empty => u = []
  | Atom cs => exists c, u = [c] /\ cs_mem ic cs c = true
  | Seq a b => exists u1 u2, u = u1 ++ u2 /\ lang ic a u1 /\ lang ic b u2
  | Alt a b => lang ic a u \/ lang ic b u
  | Star _ cs => Forall (fun c => cs_mem ic cs c = true) u
  | Plus cs => u <> [] /\ Forall (fun c => cs_mem ic cs c = true) u
  | Opt a => lang ic a u \/ u = []
  end.

(** [u] is a match of [re]. *)
Definition Match (re : RegExp) (u : str) : Prop :=
  lang (ignoreCase re) (source re) u.

(** [s] contains a match of [re]. *)
Definition Contains (re : RegExp) (s : str) : Prop :=
  exists a u b, s = a ++ u ++ b /\ Match re u.

(** [out] is [s] with the matches of [re] replaced by [rep], scanning from
    the left: the text [g] before a match holds no start of a match, the
    match is replaced, and the scan goes on behind it. *)
Inductive Replaced (re : RegExp) (rep : str) : str -> str -> Prop :=
| Replaced_none : forall s,
    ~ Contains re s -> Replaced re rep s s
| Replaced_next : forall g u rest out,
    (forall a v b, g ++ u ++ rest = a ++ v ++ b ->
                   (List.length a < List.length g)%nat -> ~ Match re v) ->
    Match re u -> u <> [] ->
    Replaced re rep rest out ->
    Replaced re rep (g ++ u ++ rest) (g ++ rep ++ out).

(** No attempt that starts inside [g], with [t] behind it, succeeds. *)
Fixpoint nostart (re : RegExp) (g t : str) : Prop :=
  match g with
  | [] => True
  | c :: g' => matchAt re (c :: g' ++ t) = None /\ nostart re g' t
  end.

(** Contiguous occurrence of one text in another, decided. *)
Fixpoint prefixb (p s : str) : bool :=
  match p, s with
  | [], _ => true
  | x :: p', y :: s' => (x =? y) && prefixb p' s'
  | _ :: _, [] => false
  end.

Fixpoint includes (s p : str) : bool :=
  prefixb p s || match s with [] => false | _ :: s' => includes s' p end.

(** The character set a match of the pattern must begin with, where the
    pattern begins with one. *)
Fixpoint leading (r : Regex) : option CharSet :=
  match r with
  | Atom cs => Some cs
  | Plus cs => Some cs
  | Seq a _ => leading a
  | _ => None
  end.

(** The code units that open and close the texts written by the
    replacements: the brackets of the placeholder, and the ampersand and
    the semicolon of the entities. *)
Definition isDelimiter (c : char) : bool :=
  (c =? 91) || (c =? 93) || (c =? 38) || (c =? 59).

(** Patterns none of whose matches can hold a delimiter. *)
Definition cs_plain (cs : CharSet) : bool :=
  match cs with
  | CsChar x => negb (isDelimiter x)
  | CsWord | CsSpace | CsDigit => true
  | CsAny | CsDot => false
  end.

Fixpoint plain (r : Regex) : bool :=
  match r with
  | Empty => true
  | Atom cs => cs_plain cs
  | Seq a b => plain a && plain b
  | Alt a b => plain a && plain b
  | Star _ cs => cs_plain cs
  | Plus cs => cs_plain cs
  | Opt a => plain a
  end.

(** Every occurrence of the code unit [c] rewritten to [rep]. *)
Definition subst (c : char) (rep : str) (s : str) : str :=
  flat_map (fun x => if x =? c then rep else [x]) s.

End Js.

(* ================================================================== *)
(** ** Input sanitization *)
(* ================================================================== *)

Module Sanitizer.

Import Js.

Inductive Severity : Type := high | critical.

Record ThreatPattern : Type := mkPattern {
  pattern : RegExp;
  name : string;
  severity : Severity
}.

(** A literal with the flags [gi], and one with the flag [g]. *)
Definition gi (r : Regex) : RegExp := mkRegExp r true 0.
Definition g (r : Regex) : RegExp := mkRegExp r false 0.

(** The table of the source, in its order. *)
Definition DANGEROUS_PATTERNS : list ThreatPattern :=
  [ (* /<script[\s\S]*?>[\s\S]*?<\/script>/gi *)
    mkPattern
      (gi (seqs [text "<script"; Star false CsAny; text ">";
                 Star false CsAny; text "</script>"]))
      "XSS Script Tag" critical;
    (* /javascript:/gi *)
    mkPattern (gi (text "javascript:")) "JavaScript URI" critical;
    (* /on\w+\s*=/gi *)
    mkPattern
      (gi (seqs [text "on"; Plus CsWord; Star true CsSpace; text "="]))
      "Event Handler" high;
    (* /'\s*(or|and)\s*'?\d*'?\s*=\s*'?\d*'?/gi *)
    mkPattern
      (gi (seqs [text "'"; Star true CsSpace;
                 Alt (text "or") (text "and");
                 Star true CsSpace; Opt (text "'"); Star true CsDigit;
                 Opt (text "'"); Star true CsSpace; text "=";
                 Star true CsSpace; Opt (text "'"); Star true CsDigit;
                 Opt (text "'")]))
      "SQL Injection" critical;
    (* /;\s*(rm|cat|ls|wget|curl)/gi *)
    mkPattern
      (gi (seqs [text ";"; Star true CsSpace;
                 alts (text "rm")
                      [text "cat"; text "ls"; text "wget"; text "curl"]]))
      "Command Injection" critical;
    (* /\.\.\//g *)
    mkPattern (g (text "../")) "Path Traversal" high;
    (* /<iframe/gi *)
    mkPattern (gi (text "<iframe")) "Iframe Injection" high;
    (* /<img.*onerror/gi *)
    mkPattern
      (gi (seqs [text "<img"; Star true CsDot; text "onerror"]))
      "Image XSS" high ].

(** The placeholder written over every match. *)
Definition BLOCKED : str := lit "[BLOCKED]".

Definition with_pattern (p : ThreatPattern) (re : RegExp) : ThreatPattern :=
  mkPattern re (name p) (severity p).

(** The body of the [for ... of] loop for one entry: [pattern.test(input)]
    decides the push onto [threats]; the replacement on [sanitized] is made
    in either case.  Both calls act on the same RegExp object, whose state
    is handed on. *)
Definition visit (input : str) (p : ThreatPattern)
           (acc : str * list string) : str * list string * ThreatPattern :=
  let '(sanitized, threats) := acc in
  let '(hit, re1) := test (pattern p) input in
  let threats' := if hit then threats ++ [name p] else threats in
  let '(sanitized', re2) := replace re1 sanitized BLOCKED in
  (sanitized', threats', with_pattern p re2).

(** The loop over the table; the entries are returned with the state their
    RegExp objects are left in. *)
Fixpoint loop (ps : list ThreatPattern) (input : str)
         (acc : str * list string)
  : str * list string * list ThreatPattern :=
  match ps with
  | [] => (fst acc, snd acc, [])
  | p :: ps' =>
      let '(sanitized, threats, p') := visit input p acc in
      let '(out, ths, ps'') := loop ps' input (sanitized, threats) in
      (out, ths, p' :: ps'')
  end.

(** The four escaping passes; each literal is a fresh RegExp object. *)
Definition LT : char := 60%N.
Definition GT : char := 62%N.
Definition QUOT : char := 34%N.
Definition APOS : char := 39%N.

Definition escape (s : str) : str :=
  let s1 := fst (replace (g (Atom (CsChar LT))) s (lit "&lt;")) in
  let s2 := fst (replace (g (Atom (CsChar GT))) s1 (lit "&gt;")) in
  let s3 := fst (replace (g (Atom (CsChar QUOT))) s2 (lit "&quot;")) in
  fst (replace (g (Atom (CsChar APOS))) s3 (lit "&#x27;")).

Record Result : Type := mkResult {
  sanitized : str;
  threats : list string
}.

(** [sanitizeInput] on the table in the state [ps]; the table is returned
    in the state the call leaves it in. *)
Definition sanitizeInput_in (ps : list ThreatPattern) (input : str)
  : Result * list ThreatPattern :=
  let '(out, ths, ps') := loop ps input (input, []) in
  (mkResult (escape out) ths, ps').

(** A call on the table as the module declares it. *)
Definition sanitizeInput (input : str) : Result :=
  fst (sanitizeInput_in DANGEROUS_PATTERNS input).

(** Successive calls, each on the table as the previous one left it. *)
Fixpoint calls (ps : list ThreatPattern) (inputs : list str) : list Result :=
  match inputs with
  | [] => []
  | i :: rest =>
      let '(r, ps') := sanitizeInput_in ps i in r :: calls ps' rest
  end.

(** The working copy as it stands after the entries [ps] have been
    applied in order. *)
Definition working (ps : list ThreatPattern) (input : str) : str :=
  fold_left (fun w p => fst (replace (pattern p) w BLOCKED)) ps input.

(** Whether an entry reports on [input]. *)
Definition reports (input : str) (p : ThreatPattern) : bool :=
  fst (test (pattern p) input).

(** Order-preserving selection from a list. *)
Inductive subseq {A : Type} : list A -> list A -> Prop :=
| subseq_nil : subseq [] []
| subseq_skip : forall x l1 l2, subseq l1 l2 -> subseq l1 (x :: l2)
| subseq_take : forall x l1 l2, subseq l1 l2 -> subseq (x :: l1) (x :: l2).

(** The entry of the table with a given label. *)
Definition entry (label : string) : option ThreatPattern :=
  find (fun p => String.eqb (name p) label) DANGEROUS_PATTERNS.

(** The RegExp object of the entry labelled Command Injection. *)
Definition COMMAND_INJECTION : RegExp :=
  match entry "Command Injection" with
  | Some p => pattern p
  | None => g Empty
  end.

(** The texts between the delimiters of the replacements. *)
Definition INTERIORS : list str :=
  [lit "BLOCKED"; lit "lt"; lit "gt"; lit "quot"; lit "#x27"].

(** An entry whose matches hold no delimiter and which finds nothing in
    the interior of a replacement: no replacement can complete a match
    of it. *)
Definition inert (re : RegExp) : bool :=
  plain (source re)
  && forallb (fun t => match search (matchAt re) t with
                       | None => true
                       | Some _ => false
                       end) INTERIORS.

End Sanitizer.

(* ================================================================== *)
(** ** Shared pieces of the components *)
(* ================================================================== *)

Module JsArray.

(** [a.slice(-n)]: the last [n] elements, all of them when there are fewer. *)
Definition slice_last {A : Type} (n : nat) (a : list A) : list A :=
  skipn (List.length a - n) a.

(** [a.slice(0, n)]. *)
Definition slice_first {A : Type} (n : nat) (a : list A) : list A :=
  firstn n a.

(** An integral number interpolated into a template literal. *)
Definition num (z : Z) : Js.str :=
  Js.lit (NilZero.string_of_int (Z.to_int z)).

End JsArray.

Module SecurityCard.

(** The [status] prop shared by the card and the badge. *)
Inductive Status : Type := protected | warning | threat.

End SecurityCard.

Module Terminal.

Import Js JsArray.

Inductive LineType : Type := input | output | error | success | warning.

(** [TerminalLine]; [delay] is optional. *)
Record TerminalLine : Type := mkLine {
  type : LineType;
  content : str;
  delay : option Z
}.

(** An object literal [{ type, content }]. *)
Definition line (t : LineType) (c : str) : TerminalLine := mkLine t c None.

(** [useState(autoPlay ? 0 : lines.length)]: evaluated when the component
    mounts, and on no later render. *)
Definition mount (autoPlay : bool) (lines : list TerminalLine) : nat :=
  if autoPlay then O else List.length lines.

(** The effect arms a timeout unless [!autoPlay || visibleLines >=
    lines.length]; when it fires, [visibleLines] goes up by one. *)
Definition timeout (autoPlay : bool) (lines : list TerminalLine)
           (visibleLines : nat) : nat :=
  if negb autoPlay || (List.length lines <=? visibleLines)%nat
  then visibleLines
  else S visibleLines.

(** [lines[visibleLines]?.delay || 300]. *)
Definition timeoutDelay (lines : list TerminalLine) (visibleLines : nat) : Z :=
  match nth_error lines visibleLines with
  | Some l =>
      match delay l with
      | Some d => if (d =? 0)%Z then 300%Z else d
      | None => 300%Z
      end
  | None => 300%Z
  end.

(** The lines drawn: [lines.slice(0, visibleLines)]. *)
Definition rendered (lines : list TerminalLine) (visibleLines : nat)
  : list TerminalLine :=
  slice_first visibleLines lines.

(** The blinking cursor: [autoPlay && visibleLines < lines.length]. *)
Definition cursor (autoPlay : bool) (lines : list TerminalLine)
           (visibleLines : nat) : bool :=
  autoPlay && (visibleLines <? List.length lines)%nat.

(** A mounted terminal across renders: each render brings the current
    [lines]; between renders the timeout may fire. *)
Inductive Event : Type :=
| Render (lines : list TerminalLine)
| Timeout.

(** The state kept by the component and the [lines] of its last render. *)
Definition step (autoPlay : bool) (e : Event)
           (s : list TerminalLine * nat) : list TerminalLine * nat :=
  match e with
  | Render lines => (lines, snd s)
  | Timeout => (fst s, timeout autoPlay (fst s) (snd s))
  end.

Definition run (autoPlay : bool) (lines0 : list TerminalLine)
           (es : list Event) : list TerminalLine * nat :=
  fold_left (fun s e => step autoPlay e s) es
            (lines0, mount autoPlay lines0).

End Terminal.

Module RateLimitUI.

Import Js JsArray RateLimit.
Local Open Scope Z_scope.

(** The state cells of [RateLimitingSimulator]: the three of [RateLimit]
    and [logs]. *)
Record Component : Type := mkComponent {
  state : State;
  logs : list Terminal.TerminalLine
}.

(** [addLog]: [setLogs(prev => [...prev.slice(-8), { type, content }])]. *)
Definition addLog (t : Terminal.LineType) (c : str)
           (prev : list Terminal.TerminalLine) : list Terminal.TerminalLine :=
  slice_last 8 prev ++ [Terminal.line t c].

Definition initialLogs : list Terminal.TerminalLine :=
  [ Terminal.line Terminal.output (lit "Rate limiting monitor initialized");
    Terminal.line Terminal.success
      (lit "Limit: " ++ num MAX_REQUESTS ++ lit " requests per "
           ++ num RESET_TIME ++ lit "s window") ].

Definition initial : Component := mkComponent RateLimit.initial initialLogs.

(** [MAX_REQUESTS * 0.7] is 7 in double arithmetic. *)
Definition WARN_AT : Z := 7.

(** The warning sign that opens the blocking line. *)
Definition WARNING_SIGN : char := 9888%N.

(** [handleRequest] with the lines it logs. *)
Definition handleRequest (c : Component) : Component :=
  let s := state c in
  if blocked s then
    mkComponent s
      (addLog Terminal.error
         (lit "Request BLOCKED - Wait " ++ num (timeToReset s)
              ++ lit "s before retry")
         (logs c))
  else
    let newCount := requests s + 1 in
    if MAX_REQUESTS <=? newCount then
      mkComponent (mkState newCount true RESET_TIME)
        (addLog Terminal.error
           (WARNING_SIGN :: lit " BLOCKING subsequent requests for 30s")
           (addLog Terminal.warning
              (lit "Rate limit reached: " ++ num newCount ++ lit "/"
                   ++ num MAX_REQUESTS)
              (logs c)))
    else if WARN_AT <=? newCount then
      mkComponent (mkState newCount (blocked s) (timeToReset s))
        (addLog Terminal.warning
           (lit "Request " ++ num newCount ++ lit "/" ++ num MAX_REQUESTS
                ++ lit " - Approaching limit!")
           (logs c))
    else
      mkComponent (mkState newCount (blocked s) (timeToReset s))
        (addLog Terminal.input
           (lit "Request " ++ num newCount ++ lit "/" ++ num MAX_REQUESTS
                ++ lit " processed successfully")
           (logs c)).

(** One firing of the interval, with the line logged when the window
    reopens. *)
Definition tick (c : Component) : Component :=
  let s := state c in
  if blocked s && (0 <? timeToReset s) then
    if timeToReset s <=? 1
    then mkComponent (mkState 0 false 0)
           (addLog Terminal.success
              (lit "Rate limit window reset. Requests allowed.") (logs c))
    else mkComponent (mkState (requests s) (blocked s) (timeToReset s - 1))
           (logs c)
  else c.

(** The button: [onClick={handleRequest} disabled={blocked}]. *)
Definition press (c : Component) : Component :=
  if blocked (state c) then c else handleRequest c.

(** [blocked ? "threat" : requests >= MAX_REQUESTS * 0.7 ? "warning" :
    "protected"]. *)
Definition status (s : State) : SecurityCard.Status :=
  if blocked s then SecurityCard.threat
  else if WARN_AT <=? requests s then SecurityCard.warning
  else SecurityCard.protected.

(** What happens to the component: the button is pressed, the handler is
    invoked, a second elapses. *)
Inductive Event : Type := Press | Request | Second.

Definition step (e : Event) (c : Component) : Component :=
  match e with
  | Press => press c
  | Request => handleRequest c
  | Second => tick c
  end.

Definition run (es : list Event) (c : Component) : Component :=
  fold_left (fun st e => step e st) es c.

(** The handler-level event a component event amounts to. *)
Definition op (e : Event) : Op :=
  match e with
  | Press => RecordEvent
  | Request => RecordEvent
  | Second => Tick
  end.

(** The terminal of the component is mounted on the initial log with
    [autoPlay={false}]. *)
Definition visibleLines : nat := Terminal.mount false initialLogs.

Definition shown (c : Component) : list Terminal.TerminalLine :=
  Terminal.rendered (logs c) visibleLines.

End RateLimitUI.

Module SanitizerUI.

Import Js JsArray Sanitizer.

(** The texts behind the example buttons. *)
Definition EXAMPLE_ATTACKS : list str :=
  [ lit "<script>alert(" ++ [QUOT] ++ lit "XSS" ++ [QUOT] ++ lit ")</script>";
    lit "'; DROP TABLE users; --";
    lit "<img src=x onerror=" ++ [QUOT] ++ lit "stealCookies()" ++ [QUOT]
        ++ lit ">";
    lit "../../../etc/passwd" ].

(** [a.join(sep)]. *)
Fixpoint join (sep : str) (a : list str) : str :=
  match a with
  | [] => []
  | x :: rest =>
      match rest with
      | [] => x
      | _ :: _ => x ++ sep ++ join sep rest
      end
  end.

(** The state cells of [InputSanitizationSimulator]. *)
Record Component : Type := mkComponent {
  input : str;
  result : option Result;
  logs : list Terminal.TerminalLine
}.

(** The component together with the table of the module, whose RegExp
    objects every call of [sanitizeInput] reads and writes. *)
Record World : Type := mkWorld {
  table : list ThreatPattern;
  component : Component
}.

Definition initialLogs : list Terminal.TerminalLine :=
  [ Terminal.line Terminal.output (lit "Input sanitization engine ready");
    Terminal.line Terminal.success
      (lit "XSS, SQL Injection, Command Injection detection enabled") ].

Definition initial : World :=
  mkWorld DANGEROUS_PATTERNS (mkComponent [] None initialLogs).

(** The three code units that open the line on detected threats, and the
    three that open the line on a safe input, as the file has them. *)
Definition THREATS_MARK : str := [226%N; 353%N; 160%N].
Definition SAFE_MARK : str := [226%N; 339%N; 8220%N].

(** [handleSanitize]. *)
Definition handleSanitize (w : World) : World :=
  let c := component w in
  let '(sanitized, table') := sanitizeInput_in (table w) (input c) in
  let analyzing :=
    lit "Analyzing input: " ++ slice_first 30 (input c) ++ lit "..." in
  let logs' :=
    if (0 <? List.length (threats sanitized))%nat then
      slice_last 5 (logs c)
      ++ [ Terminal.line Terminal.warning analyzing;
           Terminal.line Terminal.error
             (THREATS_MARK ++ lit " THREATS DETECTED: "
                ++ join (lit ", ") (map lit (threats sanitized)));
           Terminal.line Terminal.success
             (lit "Malicious content neutralized") ]
    else
      slice_last 5 (logs c)
      ++ [ Terminal.line Terminal.input analyzing;
           Terminal.line Terminal.success
             (SAFE_MARK ++ lit " No threats detected - Input is safe") ] in
  mkWorld table' (mkComponent (input c) (Some sanitized) logs').

(** [loadExample], and equally the [onChange] of the text area: the text is
    stored and the result dropped. *)
Definition loadExample (example : str) (w : World) : World :=
  mkWorld (table w) (mkComponent example None (logs (component w))).

(** The analyse button: [onClick={handleSanitize} disabled={!input}]. *)
Definition pressAnalyze (w : World) : World :=
  match input (component w) with
  | [] => w
  | _ :: _ => handleSanitize w
  end.

(** [result && result.threats.length > 0]. *)
Definition hasThreat (c : Component) : bool :=
  match result c with
  | Some r => (0 <? List.length (threats r))%nat
  | None => false
  end.

(** [hasThreat ? "warning" : "protected"]. *)
Definition status (c : Component) : SecurityCard.Status :=
  if hasThreat c then SecurityCard.warning else SecurityCard.protected.

Inductive Event : Type :=
| Change (value : str)    (* typing into the text area *)
| Load (example : str)    (* an example button *)
| Analyze                 (* the analyse button *)
| Sanitize.               (* [handleSanitize] invoked *)

Definition step (e : Event) (w : World) : World :=
  match e with
  | Change value => loadExample value w
  | Load example => loadExample example w
  | Analyze => pressAnalyze w
  | Sanitize => handleSanitize w
  end.

Definition run (es : list Event) (w : World) : World :=
  fold_left (fun st e => step e st) es w.

End SanitizerUI.

(* ================================================================== *)
(** ** Security headers *)
(* ================================================================== *)

Module Headers.

Import Js.

Record SecurityHeader : Type := mkHeader {
  name : str;
  value : str;
  enabled : bool;
  description : str;
  risk : str
}.

Definition SECURITY_HEADERS : list SecurityHeader :=
  [ mkHeader (lit "Content-Security-Policy")
      (lit "default-src 'self'; script-src 'self'; style-src 'self' 'unsafe-inline'")
      true
      (lit "Controlla quali risorse il browser pu" ++ [242%N]
           ++ lit " caricare, prevenendo XSS")
      (lit "Senza CSP, script malevoli possono essere iniettati ed eseguiti");
    mkHeader (lit "X-Frame-Options") (lit "DENY") true
      (lit "Previene il clickjacking bloccando l'embedding in iframe")
      (lit "Attaccanti potrebbero ingannare utenti con UI overlay invisibili");
    mkHeader (lit "X-Content-Type-Options") (lit "nosniff") true
      (lit "Impedisce al browser di interpretare file con MIME type errato")
      (lit "File potrebbero essere eseguiti come script invece che scaricati");
    mkHeader (lit "Strict-Transport-Security")
      (lit "max-age=31536000; includeSubDomains; preload") true
      (lit "Forza connessioni HTTPS, previene downgrade attacks")
      (lit "Traffico potrebbe essere intercettato su connessioni HTTP");
    mkHeader (lit "X-XSS-Protection") (lit "1; mode=block") true
      (lit "Attiva filtri XSS built-in del browser (legacy)")
      (lit "Browser pi" ++ [249%N]
           ++ lit " vecchi sarebbero vulnerabili a XSS riflessi");
    mkHeader (lit "Referrer-Policy") (lit "strict-origin-when-cross-origin")
      true
      (lit "Controlla quali info referrer vengono inviate")
      (lit "URL sensibili potrebbero essere esposti a terze parti");
    mkHeader (lit "Permissions-Policy")
      (lit "geolocation=(), microphone=(), camera=()") true
      (lit "Limita accesso a API browser sensibili")
      (lit "Script malevoli potrebbero accedere a camera/microfono") ].

(** [a.map((h, i) => f(h, i))], the index counted from [i]. *)
Fixpoint mapi_from {A B : Type} (f : A -> nat -> B) (i : nat) (a : list A)
  : list B :=
  match a with
  | [] => []
  | h :: rest => f h i :: mapi_from f (S i) rest
  end.

(** The updater of [toggleHeader]:
    [prev.map((h, i) => i === index ? { ...h, enabled: !h.enabled } : h)]. *)
Definition toggleHeader (index : nat) (prev : list SecurityHeader)
  : list SecurityHeader :=
  mapi_from
    (fun h i =>
       if (i =? index)%nat
       then mkHeader (name h) (value h) (negb (enabled h))
                     (description h) (risk h)
       else h)
    O prev.

(** [headers.filter(h => h.enabled).length]. *)
Definition enabledCount (headers : list SecurityHeader) : nat :=
  List.length (filter enabled headers).

(** [enabledCount === headers.length ? "protected" : enabledCount >=
    headers.length / 2 ? "warning" : "threat"]; the division is exact
    division, so the second test is [headers.length <= 2 * enabledCount]. *)
Definition status (headers : list SecurityHeader) : SecurityCard.Status :=
  if (enabledCount headers =? List.length headers)%nat
  then SecurityCard.protected
  else if (List.length headers <=? 2 * enabledCount headers)%nat
       then SecurityCard.warning
       else SecurityCard.threat.

(** The two state cells of [SecurityHeadersViewer]. *)
Record Component : Type := mkComponent {
  headers : list SecurityHeader;
  selectedHeader : option SecurityHeader
}.

Definition initial : Component := mkComponent SECURITY_HEADERS None.

(** A click on row [index], the mouse entering row [index] (the handler
    holds the header object of the current render), the mouse leaving. *)
Inductive Event : Type :=
| Click (index : nat)
| MouseEnter (index : nat)
| MouseLeave.

Definition step (e : Event) (c : Component) : Component :=
  match e with
  | Click index => mkComponent (toggleHeader index (headers c))
                               (selectedHeader c)
  | MouseEnter index => mkComponent (headers c) (nth_error (headers c) index)
  | MouseLeave => mkComponent (headers c) None
  end.

Definition run (es : list Event) (c : Component) : Component :=
  fold_left (fun st e => step e st) es c.

End Headers.

(* ================================================================== *)
(** ** The access gate *)
(* ================================================================== *)

Module Auth.

Import Js.

(** [===] on strings. *)
Fixpoint streqb (a b : str) : bool :=
  match a, b with
  | [], [] => true
  | x :: a', y :: b' => (x =? y)%N && streqb a' b'
  | _, _ => false
  end.

(** [sessionStorage], as far as [getItem], [setItem] and [removeItem]
    see it. *)
Definition Storage : Type := str -> option str.

Definition getItem (st : Storage) (key : str) : option str := st key.

Definition setItem (key value : str) (st : Storage) : Storage :=
  fun k => if streqb k key then Some value else st k.

Definition removeItem (key : str) (st : Storage) : Storage :=
  fun k => if streqb k key then None else st k.

Definition AUTH_KEY : str := lit "secureshield_authenticated".

(** The access code that [validateAccessCode] hashes for comparison. *)
Definition ACCESS_CODE : str :=
  lit "gT6@Qp!R1Z$uN9e#X^cD2sL%hY&vJm*W+K7B~A=F4q-Uo_rP)k8S]3C0{I?E".

Definition setAuthenticated (value : bool) (st : Storage) : Storage :=
  if value then setItem AUTH_KEY (lit "true") st
  else removeItem AUTH_KEY st.

Definition isAuthenticated (st : Storage) : bool :=
  match getItem st AUTH_KEY with
  | Some v => streqb v (lit "true")
  | None => false
  end.

Definition logout (st : Storage) : Storage := setAuthenticated false st.

(** A hexadecimal digit, lower case. *)
Definition hexDigit (n : N) : char :=
  (if n <? 10 then 48 + n else 87 + n)%N.

(** [b.toString(16)] for an element of a [Uint8Array]. *)
Definition toString16 (b : N) : str :=
  (if b <? 16 then [hexDigit b] else [hexDigit (b / 16); hexDigit (b mod 16)])%N.

(** [s.padStart(n, c)] for a one-character filler. *)
Definition padStart (n : nat) (c : char) (s : str) : str :=
  repeat c (n - List.length s) ++ s.

(** [hashArray.map(b => b.toString(16).padStart(2, '0')).join('')]. *)
Definition hashHex (hashArray : list N) : str :=
  flat_map (fun b => padStart 2 48%N (toString16 b)) hashArray.

(** [hashCode]: the encoder and the digest belong to the platform; the
    digest is a promise, which may be rejected. *)
Definition hashCode (encode : str -> list N)
           (digest : list N -> option (list N)) (code : str) : option str :=
  match digest (encode code) with
  | Some hashBuffer => Some (hashHex hashBuffer)
  | None => None
  end.

(** [validateAccessCode]: a rejected promise is [None]. *)
Definition validateAccessCode (encode : str -> list N)
           (digest : list N -> option (list N)) (code : str) : option bool :=
  match hashCode encode digest code with
  | None => None
  | Some inputHash =>
      match hashCode encode digest ACCESS_CODE with
      | None => None
      | Some expectedHash => Some (streqb inputHash expectedHash)
      end
  end.

(** [s.trim()]. *)
Definition isBlank (c : char) : bool := isWhiteSpace c || isLineTerminator c.

Fixpoint trimStart (s : str) : str :=
  match s with
  | [] => []
  | c :: rest => if isBlank c then trimStart rest else s
  end.

Definition trim (s : str) : str := rev (trimStart (rev (trimStart s))).

(** The page: the storage of the session, the flag of [useAuth], and the
    state cells of [LoginScreen] that the logic reads. *)
Record Page : Type := mkPage {
  storage : Storage;
  authenticated : bool;
  code : str;
  error : str
}.

(** The hook is initialised from the storage; the login screen starts
    empty. *)
Definition mount (st : Storage) : Page :=
  mkPage st (isAuthenticated st) [] [].

(** [login] of [useAuth]. *)
Definition login (p : Page) : Page :=
  mkPage (setAuthenticated true (storage p)) true (code p) (error p).

(** [logout] of [useAuth]; the login screen is mounted afresh. *)
Definition signOut (p : Page) : Page :=
  mkPage (setAuthenticated false (storage p)) false [] [].

(** [handleSubmit] of [LoginScreen]. *)
Definition handleSubmit (encode : str -> list N)
           (digest : list N -> option (list N)) (p : Page) : Page :=
  match validateAccessCode encode digest (code p) with
  | Some true =>
      login (mkPage (setAuthenticated true (storage p)) (authenticated p)
                    (code p) [])
  | Some false =>
      mkPage (storage p) (authenticated p) (code p)
             (lit "Codice di accesso non valido. Riprova.")
  | None =>
      mkPage (storage p) (authenticated p) (code p)
             (lit "Errore durante la validazione. Riprova.")
  end.

(** What the visitor can do: type into the field and submit while the
    login screen is shown (the button is disabled on a blank code), sign
    out while the dashboard is shown, reload the page. *)
Inductive Event : Type :=
| Type_ (value : str)
| Submit
| SignOut
| Reload.

Definition step (encode : str -> list N)
           (digest : list N -> option (list N)) (e : Event) (p : Page)
  : Page :=
  match e with
  | Type_ value =>
      if authenticated p then p
      else mkPage (storage p) (authenticated p) value (error p)
  | Submit =>
      if authenticated p then p
      else match trim (code p) with
           | [] => p
           | _ :: _ => handleSubmit encode digest p
           end
  | SignOut => if authenticated p then signOut p else p
  | Reload => mount (storage p)
  end.

Definition run (encode : str -> list N)
           (digest : list N -> option (list N)) (es : list Event) (p : Page)
  : Page :=
  fold_left (fun st e => step encode digest e st) es p.

End Auth.

(* ================================================================== *)
(** ** CSRF tokens *)
(* ================================================================== *)

Module Csrf.

Import Js JsArray.

(** [generateToken]; [r1] and [r2] stand for the two texts
    [Math.random().toString(36).substring(2, 15)], which belong to the
    platform. *)
Definition generateToken (r1 r2 : str) : str := lit "csrf_" ++ r1 ++ r2.

(** The token the effect installs in attack mode. *)
Definition FAKE_TOKEN : str := lit "malicious_fake_token_xyz".

Inductive Verdict : Type := v_success | v_error.

(** The state cells of [CSRFProtectionSimulator], and the tokens held by
    the call of [validateRequest] that is waiting for its delay, if any. *)
Record Component : Type := mkComponent {
  serverToken : str;
  clientToken : str;
  isValidating : bool;
  validationResult : option Verdict;
  attackMode : bool;
  logs : list Terminal.TerminalLine;
  pending : option (str * str)
}.

Definition initialLogs : list Terminal.TerminalLine :=
  [ Terminal.line Terminal.output (lit "CSRF protection initialized");
    Terminal.line Terminal.success (lit "Token synchronized with server") ].

(** The effect on [attackMode] and [serverToken]. *)
Definition sync (c : Component) : Component :=
  mkComponent (serverToken c)
    (if attackMode c then FAKE_TOKEN else serverToken c)
    (isValidating c) (validationResult c) (attackMode c) (logs c) (pending c).

(** The first render and its effect. *)
Definition initial (r1 r2 : str) : Component :=
  sync (mkComponent (generateToken r1 r2) (generateToken r1 r2)
                    false None false initialLogs None).

(** [validateRequest] up to its [await]. *)
Definition validateRequest (c : Component) : Component :=
  mkComponent (serverToken c) (clientToken c) true None (attackMode c)
    (slice_last 6 (logs c)
     ++ [ Terminal.line Terminal.input
            (lit "Submitting form with CSRF token...");
          Terminal.line Terminal.output
            (lit "Client token: " ++ slice_first 20 (clientToken c)
                 ++ lit "...") ])
    (Some (clientToken c, serverToken c)).

(** The check mark and the cross that open the two verdict lines. *)
Definition CHECK_MARK : char := 10003%N.
Definition CROSS_MARK : char := 10007%N.

(** [validateRequest] after its [await]: the tokens compared are those
    the call was made with. *)
Definition resume (c : Component) : Component :=
  match pending c with
  | None => c
  | Some (client, server) =>
      let isValid := Auth.streqb client server in
      mkComponent (serverToken c) (clientToken c) false
        (Some (if isValid then v_success else v_error))
        (attackMode c)
        (slice_last 6 (logs c)
         ++ (if isValid then
               [ Terminal.line Terminal.success
                   (CHECK_MARK :: lit " Token validated successfully");
                 Terminal.line Terminal.success
                   (lit "Request APPROVED - Action executed") ]
             else
               [ Terminal.line Terminal.error
                   (CROSS_MARK :: lit " Token mismatch detected!");
                 Terminal.line Terminal.error
                   (lit "Request REJECTED - Possible CSRF attack") ]))
        None
  end.

(** [rotateToken], followed by the effect. *)
Definition rotateToken (r1 r2 : str) (c : Component) : Component :=
  let newToken := generateToken r1 r2 in
  sync (mkComponent newToken (clientToken c) (isValidating c) None
          (attackMode c)
          (slice_last 6 (logs c)
           ++ [ Terminal.line Terminal.warning
                  (lit "Token rotated for security");
                Terminal.line Terminal.output
                  (lit "New token: " ++ slice_first 20 newToken
                       ++ lit "...") ])
          (pending c)).

(** The attack button, followed by the effect. *)
Definition toggleAttack (c : Component) : Component :=
  sync (mkComponent (serverToken c) (clientToken c) (isValidating c)
          (validationResult c) (negb (attackMode c)) (logs c) (pending c)).

(** The submit button is disabled while validating. *)
Inductive Event : Type :=
| Submit
| Delay                    (* the second of [validateRequest] is over *)
| Rotate (r1 r2 : str)
| Attack.

Definition step (e : Event) (c : Component) : Component :=
  match e with
  | Submit => if isValidating c then c else validateRequest c
  | Delay => resume c
  | Rotate r1 r2 => rotateToken r1 r2 c
  | Attack => toggleAttack c
  end.

Definition run (es : list Event) (c : Component) : Component :=
  fold_left (fun st e => step e st) es c.

(** [attackMode ? "threat" : "protected"]. *)
Definition status (c : Component) : SecurityCard.Status :=
  if attackMode c then SecurityCard.threat else SecurityCard.protected.

(** What every state of the component satisfies. *)
Definition good (c : Component) : Prop :=
  clientToken c = (if attackMode c then FAKE_TOKEN else serverToken c)
  /\ prefixb (lit "csrf_") (serverToken c) = true
  /\ (isValidating c = true <-> pending c <> None)
  /\ (2 <= List.length (logs c) <= 8)%nat.

End Csrf.

(* ================================================================== *)
(** ** The rate-limit window: proofs *)
(* ================================================================== *)

Section RateLimitFacts.

Import RateLimit.
Local Open Scope Z_scope.

Ltac unfold_ops :=
  unfold step, handleRequest, tick, shape, initial, MAX_REQUESTS, RESET_TIME
    in *; simpl in *.

Ltac split_tests :=
  repeat match goal with
    | |- context [if ?b then _ else _] => destruct b eqn:?
    | H : context [if ?b then _ else _] |- _ => destruct b eqn:?
    | H : (_ <=? _) = true |- _ => apply Z.leb_le in H
    | H : (_ <=? _) = false |- _ => apply Z.leb_gt in H
    | H : (_ <? _) = true |- _ => apply Z.ltb_lt in H
    | H : (_ <? _) = false |- _ => apply Z.ltb_ge in H
    | H : (_ && _)%bool = true |- _ => apply andb_true_iff in H; destruct H
    end; simpl in *.

Lemma shape_initial : shape initial.
Proof. unfold_ops. left. lia. Qed.

Lemma shape_step : forall o s, shape s -> shape (step o s).
Proof.
  intros o [r b t] [(Hb & Hr & Ht) | (Hb & Hr & Ht)]; simpl in *; subst;
    destruct o; unfold_ops; split_tests; try lia; try discriminate;
    solve [ left; repeat split; lia | right; repeat split; lia ].
Qed.

Lemma reachable_shape : forall s, reachable s -> shape s.
Proof.
  induction 1 as [| o s _ IH]; [apply shape_initial | now apply shape_step].
Qed.

Lemma run_snoc : forall ops o s, run (ops ++ [o]) s = step o (run ops s).
Proof. intros. unfold run. now rewrite fold_left_app. Qed.

Lemma reachable_run : forall ops, reachable (run ops initial).
Proof.
  induction ops as [| o ops IH] using rev_ind.
  - apply reach_initial.
  - rewrite run_snoc. now apply reach_step.
Qed.

Lemma reachable_is_run : forall s, reachable s -> exists ops, s = run ops initial.
Proof.
  induction 1 as [| o s _ [ops ->]].
  - now exists [].
  - exists (ops ++ [o]). now rewrite run_snoc.
Qed.

Lemma ticks_S : forall n s, ticks (S n) s = ticks n (tick s).
Proof. intros. unfold ticks. now rewrite Nat.iter_succ_r. Qed.

Lemma clicks_S : forall n s, clicks (S n) s = handleRequest (clicks n s).
Proof. reflexivity. Qed.

(** Once the window is open again the interval is gone. *)
Lemma ticks_idle : forall n s, blocked s = false -> ticks n s = s.
Proof.
  induction n as [| n IH]; intros s Hb; [reflexivity |].
  rewrite ticks_S.
  assert (Ht : tick s = s) by (unfold tick; now rewrite Hb).
  rewrite Ht. now apply IH.
Qed.

(** A countdown from [t] is over after [t] firings, and stays over. *)
Lemma ticks_countdown : forall n s,
    blocked s = true -> 0 < timeToReset s <= Z.of_nat n ->
    ticks n s = mkState 0 false 0.
Proof.
  induction n as [| n IH]; intros [r b t] Hb Ht;
    cbn [blocked timeToReset] in *; [lia |].
  subst b. rewrite ticks_S. unfold tick; cbn [blocked timeToReset andb].
  destruct (0 <? t) eqn:Hpos; [| apply Z.ltb_ge in Hpos; lia].
  destruct (t <=? 1) eqn:Hone.
  - now apply ticks_idle.
  - apply Z.leb_gt in Hone. apply IH; simpl; [reflexivity | lia].
Qed.

(** While counting, [n] clicks below the limit just count. *)
Lemma clicks_counting : forall n,
    (Z.of_nat n < MAX_REQUESTS) ->
    clicks n initial = mkState (Z.of_nat n) false 0.
Proof.
  induction n as [| n IH]; intros Hn; [reflexivity |].
  rewrite clicks_S, IH by lia.
  unfold handleRequest, MAX_REQUESTS in *; simpl.
  destruct (10 <=? Z.of_nat n + 1) eqn:E.
  - apply Z.leb_le in E. lia.
  - f_equal. lia.
Qed.

(** C2: in every state reached from the initial one by clicks and timer
    firings, [blocked] holds exactly when [timeToReset] is positive; and a
    step takes [blocked] from true to false exactly when it takes
    [requests] from a non-zero value to 0. *)
Theorem blocked_iff_timer_running : forall ops : list Op,
    (blocked (run ops initial) = true <-> 0 < timeToReset (run ops initial))
    /\ forall o : Op,
        (blocked (run ops initial) = true
         /\ blocked (step o (run ops initial)) = false)
        <-> (requests (run ops initial) <> 0
             /\ requests (step o (run ops initial)) = 0).
Proof.
  intros ops.
  pose proof (reachable_shape _ (reachable_run ops)) as Hs.
  destruct (run ops initial) as [r b t].
  destruct Hs as [(Hb & Hr & Ht) | (Hb & Hr & Ht)]; simpl in *; subst.
  - split; [split; [discriminate | lia] |].
    intros o; split; [intros [? _]; discriminate |].
    intros [Hnz Hz]. exfalso.
    destruct o; unfold_ops; split_tests; lia.
  - split; [split; [lia | reflexivity] |].
    intros o; destruct o; unfold_ops; split_tests;
      split; intros [H1 H2]; try discriminate; try lia;
      split; try reflexivity; lia.
Qed.

(** C4: from the initial state, fewer than [MAX_REQUESTS] clicks leave the
    window open with one request counted per click, exactly [MAX_REQUESTS]
    clicks leave it blocked with [timeToReset = RESET_TIME], and a click in
    a state that is not blocked raises [requests] by exactly 1. *)
Theorem ten_clicks_block :
    (forall n : nat, Z.of_nat n < MAX_REQUESTS ->
        blocked (clicks n initial) = false
        /\ requests (clicks n initial) = Z.of_nat n)
    /\ blocked (clicks (Z.to_nat MAX_REQUESTS) initial) = true
    /\ timeToReset (clicks (Z.to_nat MAX_REQUESTS) initial) = RESET_TIME
    /\ (forall s : State, blocked s = false ->
          requests (handleRequest s) = requests s + 1).
Proof.
  split; [| split; [reflexivity | split; [reflexivity |]]].
  - intros n Hn. now rewrite clicks_counting.
  - intros [r b t] Hb; simpl in *; subst. unfold handleRequest; simpl.
    now destruct (MAX_REQUESTS <=? r + 1).
Qed.

Lemma ten_clicks_block_witness :
    (Z.of_nat 7 < MAX_REQUESTS)
    /\ blocked (clicks 7 initial) = false
    /\ requests (clicks 7 initial) = 7
    /\ blocked (mkState 3 false 0) = false
    /\ requests (handleRequest (mkState 3 false 0)) = 3 + 1.
Proof.
  assert (H7 : Z.of_nat 7 < MAX_REQUESTS) by (unfold MAX_REQUESTS; lia).
  destruct ten_clicks_block as (Hbelow & _ & _ & Hinc).
  destruct (Hbelow 7%nat H7) as [Hb Hr].
  split; [exact H7 |]. split; [exact Hb |]. split; [exact Hr |].
  split; [reflexivity |].
  exact (Hinc (mkState 3 false 0) eq_refl).
Defined.

(** The blocked states the component reaches have a running timer. *)
Lemma reachable_blocked_timer : forall s,
    reachable s -> blocked s = true -> 0 < timeToReset s <= RESET_TIME.
Proof.
  intros s Hr Hb. destruct (reachable_shape _ Hr) as [(Hf & _) | (_ & _ & Ht)].
  - congruence.
  - exact Ht.
Qed.

(** C5: a firing of the interval in a blocked state lowers [timeToReset]
    by 1 and, when that reaches 0, clears [blocked] and [requests] (and
    otherwise leaves them alone); so from a blocked state with the timer
    between 1 and [RESET_TIME], [RESET_TIME] firings in a row end in
    [blocked = false], [requests = 0]; and every blocked state the
    component reaches has its timer in that range. *)
Theorem countdown_unblocks :
    (forall s : State,
        blocked s = true -> 0 < timeToReset s ->
        timeToReset (tick s) = timeToReset s - 1
        /\ (timeToReset (tick s) = 0 ->
              blocked (tick s) = false /\ requests (tick s) = 0)
        /\ (timeToReset (tick s) <> 0 ->
              blocked (tick s) = true /\ requests (tick s) = requests s))
    /\ (forall s : State,
          blocked s = true -> 0 < timeToReset s <= RESET_TIME ->
          blocked (ticks (Z.to_nat RESET_TIME) s) = false
          /\ requests (ticks (Z.to_nat RESET_TIME) s) = 0)
    /\ (forall ops : list Op,
          blocked (run ops initial) = true ->
          0 < timeToReset (run ops initial) <= RESET_TIME).
Proof.
  split; [| split].
  - intros [r b t] Hb Ht; cbn [blocked timeToReset] in *; subst b.
    unfold tick; cbn [blocked timeToReset requests andb].
    destruct (0 <? t) eqn:Hpos; [| apply Z.ltb_ge in Hpos; lia].
    destruct (t <=? 1) eqn:Hone; cbn [blocked timeToReset requests].
    + apply Z.leb_le in Hone. repeat split; try reflexivity; lia.
    + apply Z.leb_gt in Hone. repeat split; try reflexivity; lia.
  - intros s Hb Ht.
    assert (Hend : ticks (Z.to_nat RESET_TIME) s = mkState 0 false 0).
    { apply ticks_countdown; [exact Hb |].
      unfold RESET_TIME in *. rewrite Z2Nat.id; lia. }
    rewrite Hend. split; reflexivity.
  - intros ops Hb. exact (reachable_blocked_timer _ (reachable_run ops) Hb).
Qed.

Lemma countdown_unblocks_witness :
    blocked (run (repeat RecordEvent 10 ++ [Tick; Tick]) initial) = true
    /\ timeToReset (run (repeat RecordEvent 10 ++ [Tick; Tick]) initial) = 28
    /\ timeToReset
         (tick (run (repeat RecordEvent 10 ++ [Tick; Tick]) initial)) = 28 - 1
    /\ blocked (ticks (Z.to_nat RESET_TIME)
                  (run (repeat RecordEvent 10 ++ [Tick; Tick]) initial)) = false
    /\ requests (ticks (Z.to_nat RESET_TIME)
                   (run (repeat RecordEvent 10 ++ [Tick; Tick]) initial)) = 0.
Proof.
  destruct countdown_unblocks as (Hone & Hall & Hreach).
  assert (Hb : blocked (run (repeat RecordEvent 10 ++ [Tick; Tick]) initial)
               = true) by reflexivity.
  pose proof (Hreach _ Hb) as Ht.
  destruct (Hone _ Hb (proj1 Ht)) as (H1 & _ & _).
  destruct (Hall _ Hb Ht) as (H4 & H5).
  split; [exact Hb |]. split; [reflexivity |]. split; [exact H1 |].
  split; [exact H4 | exact H5].
Defined.

(** C6: a click in a blocked state leaves [requests], [blocked] and
    [timeToReset] as they were. *)
Theorem blocked_click_is_noop : forall s : State,
    blocked s = true ->
    handleRequest s = s
    /\ requests (handleRequest s) = requests s
    /\ blocked (handleRequest s) = blocked s
    /\ timeToReset (handleRequest s) = timeToReset s.
Proof.
  intros s Hb. unfold handleRequest. rewrite Hb. now repeat split.
Qed.

Lemma blocked_click_is_noop_witness :
    blocked (mkState 10 true 17) = true
    /\ handleRequest (mkState 10 true 17) = mkState 10 true 17.
Proof.
  split; [reflexivity |].
  exact (proj1 (blocked_click_is_noop (mkState 10 true 17) eq_refl)).
Defined.

(** C10: in every state reached from the initial one by clicks and timer
    firings, [requests] lies between 0 and [MAX_REQUESTS] and
    [timeToReset] between 0 and [RESET_TIME]; the counter stands at the
    limit only in a blocked state, where a click changes nothing. *)
Theorem counters_bounded : forall ops : list Op,
    0 <= requests (run ops initial) <= MAX_REQUESTS
    /\ 0 <= timeToReset (run ops initial) <= RESET_TIME
    /\ (requests (run ops initial) < MAX_REQUESTS
        \/ (blocked (run ops initial) = true
            /\ handleRequest (run ops initial) = run ops initial)).
Proof.
  intros ops.
  pose proof (reachable_shape _ (reachable_run ops)) as Hs.
  destruct Hs as [(Hb & Hr & Ht) | (Hb & Hr & Ht)];
    unfold MAX_REQUESTS, RESET_TIME in *.
  - split; [lia | split; [lia | left; lia]].
  - split; [lia | split; [lia | right]]. split; [exact Hb |].
    unfold handleRequest. now rewrite Hb.
Qed.

End RateLimitFacts.

(* ================================================================== *)
(** ** The matcher against the language of a pattern *)
(* ================================================================== *)

Section MatcherFacts.

Import Js.

Variable p : char -> bool.

Lemma star_greedy_sound : forall (k : Cont) s r,
    star_greedy p k s = Some r ->
    exists u v, s = u ++ v /\ Forall (fun c => p c = true) u /\ k v = Some r.
Proof.
  intros k; induction s as [| c s IH]; intros r H; simpl in H.
  - exists [], []. auto.
  - destruct (p c) eqn:Hc.
    + destruct (star_greedy p k s) as [r' |] eqn:Hs.
      * inversion H; subst r'.
        destruct (IH r eq_refl) as (u & v & -> & Hu & Hk).
        exists (c :: u), v. auto.
      * exists [], (c :: s). auto.
    + exists [], (c :: s). auto.
Qed.

Lemma star_greedy_here : forall (k : Cont) s,
    k s <> None -> star_greedy p k s <> None.
Proof.
  intros k [| c s] H; simpl; [exact H |].
  destruct (p c); [| exact H].
  destruct (star_greedy p k s); [discriminate | exact H].
Qed.

Lemma star_greedy_complete : forall (k : Cont) u v,
    Forall (fun c => p c = true) u -> k v <> None ->
    star_greedy p k (u ++ v) <> None.
Proof.
  intros k u v Hu Hk; induction Hu as [| c u Hc _ IH]; simpl.
  - now apply star_greedy_here.
  - rewrite Hc. destruct (star_greedy p k (u ++ v)); [discriminate | tauto].
Qed.

Lemma star_lazy_sound : forall (k : Cont) s r,
    star_lazy p k s = Some r ->
    exists u v, s = u ++ v /\ Forall (fun c => p c = true) u /\ k v = Some r.
Proof.
  intros k; induction s as [| c s IH]; intros r H; simpl in H.
  - destruct (k []) as [r' |] eqn:Hk; [| discriminate].
    inversion H; subst r'. exists [], []. auto.
  - destruct (k (c :: s)) as [r' |] eqn:Hk.
    + inversion H; subst r'. exists [], (c :: s). auto.
    + destruct (p c) eqn:Hc; [| discriminate].
      destruct (IH r H) as (u & v & -> & Hu & Hv).
      exists (c :: u), v. auto.
Qed.

Lemma star_lazy_here : forall (k : Cont) s,
    k s <> None -> star_lazy p k s <> None.
Proof.
  intros k [| c s] H; simpl.
  - destruct (k []); [discriminate | tauto].
  - destruct (k (c :: s)); [discriminate | tauto].
Qed.

Lemma star_lazy_complete : forall (k : Cont) u v,
    Forall (fun c => p c = true) u -> k v <> None ->
    star_lazy p k (u ++ v) <> None.
Proof.
  intros k u v Hu Hk; induction Hu as [| c u Hc _ IH]; simpl.
  - now apply star_lazy_here.
  - destruct (k (c :: u ++ v)); [discriminate |]. now rewrite Hc.
Qed.

End MatcherFacts.

Section LanguageFacts.

Import Js.

Variable ic : bool.

(** Whatever the matcher consumes is in the language of the pattern. *)
Lemma m_sound : forall r (k : Cont) s x,
    m ic r k s = Some x ->
    exists u v, s = u ++ v /\ lang ic r u /\ k v = Some x.
Proof.
  induction r as [| cs | a IHa b IHb | a IHa b IHb | gr cs | cs | a IHa];
    intros k s x H; simpl in H.
  - exists [], s. simpl. auto.
  - destruct s as [| c s]; [discriminate |].
    destruct (cs_mem ic cs c) eqn:Hc; [| discriminate].
    exists [c], s. simpl. eauto.
  - destruct (IHa _ _ _ H) as (u1 & v1 & -> & Hu1 & H1).
    destruct (IHb _ _ _ H1) as (u2 & v & -> & Hu2 & H2).
    exists (u1 ++ u2), v. rewrite <- app_assoc. simpl. eauto 7.
  - destruct (m ic a k s) as [y |] eqn:Ha.
    + inversion H; subst y.
      destruct (IHa _ _ _ Ha) as (u & v & -> & Hu & Hk).
      exists u, v. simpl. auto.
    + destruct (IHb _ _ _ H) as (u & v & -> & Hu & Hk).
      exists u, v. simpl. auto.
  - destruct gr; [apply star_greedy_sound in H | apply star_lazy_sound in H];
      destruct H as (u & v & -> & Hu & Hk); exists u, v; simpl; auto.
  - destruct s as [| c s]; [discriminate |].
    destruct (cs_mem ic cs c) eqn:Hc; [| discriminate].
    apply star_greedy_sound in H. destruct H as (u & v & -> & Hu & Hk).
    exists (c :: u), v. simpl. repeat split; auto. discriminate.
  - destruct (m ic a k s) as [y |] eqn:Ha.
    + inversion H; subst y.
      destruct (IHa _ _ _ Ha) as (u & v & -> & Hu & Hk).
      exists u, v. simpl. auto.
    + exists [], s. simpl. auto.
Qed.

(** Whenever some split of the text puts a word of the language in front
    of a text the continuation accepts, the matcher succeeds. *)
Lemma m_complete : forall r (k : Cont) u v,
    lang ic r u -> k v <> None -> m ic r k (u ++ v) <> None.
Proof.
  induction r as [| cs | a IHa b IHb | a IHa b IHb | gr cs | cs | a IHa];
    intros k u v Hu Hk; simpl in Hu |- *.
  - now subst u.
  - destruct Hu as (c & -> & Hc). simpl. now rewrite Hc.
  - destruct Hu as (u1 & u2 & -> & H1 & H2). rewrite <- app_assoc.
    apply IHa; [exact H1 |]. now apply IHb.
  - destruct (m ic a k (u ++ v)) eqn:Ha; [discriminate |].
    destruct Hu as [Hu | Hu]; [| now apply IHb].
    exfalso. now apply (IHa k u v Hu Hk).
  - destruct gr; [now apply star_greedy_complete
                 | now apply star_lazy_complete].
  - destruct Hu as [Hne Hu]. destruct Hu as [| c u Hc Hu]; [easy |].
    simpl. rewrite Hc. now apply star_greedy_complete.
  - destruct (m ic a k (u ++ v)) eqn:Ha; [discriminate |].
    destruct Hu as [Hu | ->]; [| exact Hk].
    exfalso. now apply (IHa k u v Hu Hk).
Qed.

End LanguageFacts.

Section ScanFacts.

Import Js.

Variable re : RegExp.

Lemma matchAt_sound : forall s rest,
    matchAt re s = Some rest -> exists u, s = u ++ rest /\ Match re u.
Proof.
  intros s rest H. apply m_sound in H.
  destruct H as (u & v & -> & Hu & Hk). inversion Hk; subst. now exists u.
Qed.

Lemma matchAt_complete : forall u v,
    Match re u -> matchAt re (u ++ v) <> None.
Proof. intros u v Hu. now apply m_complete. Qed.

Lemma matchAt_none : forall s u v,
    matchAt re s = None -> s = u ++ v -> ~ Match re u.
Proof.
  intros s u v Hn -> Hu. now apply (matchAt_complete u v Hu).
Qed.

Lemma nostart_spec : forall g t a v b,
    nostart re g t -> g ++ t = a ++ v ++ b ->
    (List.length a < List.length g)%nat -> ~ Match re v.
Proof.
  induction g as [| c g IH]; intros t a v b Hg E Hl; simpl in *; [lia |].
  destruct Hg as [Hc Hg]. destruct a as [| x a]; simpl in *.
  - now apply (matchAt_none _ v b Hc).
  - inversion E; subst x. apply (IH t a v b Hg); [assumption | lia].
Qed.

Lemma search_none : forall s,
    search (matchAt re) s = None -> ~ Contains re s.
Proof.
  induction s as [| c s IH]; simpl; intros H (a & u & b & E & Hu).
  - destruct (matchAt re []) eqn:Hm; [discriminate |].
    destruct a; [| discriminate]. now apply (matchAt_none _ u b Hm).
  - destruct (matchAt re (c :: s)) eqn:Hm; [discriminate |].
    destruct (search (matchAt re) s) as [[i rest] |] eqn:Hs; [discriminate |].
    destruct a as [| x a]; simpl in E.
    + now apply (matchAt_none _ u b Hm).
    + inversion E; subst. apply IH; [reflexivity |]. now exists a, u, b.
Qed.

Lemma search_some : forall s i rest,
    search (matchAt re) s = Some (i, rest) ->
    exists g u, s = g ++ u ++ rest /\ List.length g = i
                /\ nostart re g (u ++ rest)
                /\ matchAt re (u ++ rest) = Some rest /\ Match re u.
Proof.
  induction s as [| c s IH]; simpl; intros i rest H.
  - destruct (matchAt re []) as [r |] eqn:Hm; [| discriminate].
    inversion H; subst. destruct (matchAt_sound _ _ Hm) as (u & E & Hu).
    exists [], u. simpl. rewrite <- E. auto.
  - destruct (matchAt re (c :: s)) as [r |] eqn:Hm.
    + inversion H; subst. destruct (matchAt_sound _ _ Hm) as (u & E & Hu).
      exists [], u. simpl. rewrite <- E. auto.
    + destruct (search (matchAt re) s) as [[j r] |] eqn:Hs; [| discriminate].
      inversion H; subst.
      destruct (IH _ _ eq_refl) as (g & u & -> & Hl & Hg & Hm' & Hu).
      exists (c :: g), u. simpl. rewrite Hl. auto 6.
Qed.

Lemma search_found : forall s, Contains re s -> search (matchAt re) s <> None.
Proof.
  intros s Hc Hn. now apply (search_none _ Hn).
Qed.

(** [test] on an expression whose [lastIndex] is 0 says whether the text
    contains a match. *)
Lemma test_reflects : forall s,
    lastIndex re = O ->
    (fst (test re s) = true <-> Contains re s).
Proof.
  intros s H0. unfold test. rewrite H0. simpl.
  destruct (search (matchAt re) s) as [[i rest] |] eqn:Hs; simpl.
  - split; [intros _ | reflexivity].
    destruct (search_some _ _ _ Hs) as (g & u & -> & _ & _ & _ & Hu).
    now exists g, u, rest.
  - split; [discriminate |]. intros Hc. now apply search_none in Hs.
Qed.

Variable rep : str.

Let R := replace_from (matchAt re) rep 0.

Lemma replace_from_skip : forall u v,
    replace_from (matchAt re) rep (List.length u) (u ++ v) = R v.
Proof. induction u as [| c u IH]; intros v; simpl; [reflexivity | apply IH]. Qed.

Lemma replace_match : forall u rest,
    matchAt re (u ++ rest) = Some rest -> u <> [] ->
    R (u ++ rest) = rep ++ R rest.
Proof.
  intros [| c u] rest Hm Hne; [easy |].
  unfold R at 1. rewrite <- app_comm_cons in *.
  cbn [replace_from]. rewrite Hm.
  replace (List.length (c :: u ++ rest) - List.length rest)%nat
    with (S (List.length u)) by (cbn [List.length]; rewrite length_app; lia).
  now rewrite replace_from_skip.
Qed.

Lemma replace_nostart : forall g t,
    nostart re g t -> R (g ++ t) = g ++ R t.
Proof.
  induction g as [| c g IH]; intros t Hg; [reflexivity |].
  destruct Hg as [Hc Hg]. unfold R at 1. simpl. simpl in Hc. rewrite Hc.
  f_equal. now apply IH.
Qed.

(** A text without a match is returned as it is. *)
Lemma replace_unmatched : forall s, ~ Contains re s -> R s = s.
Proof.
  induction s as [| c s IH]; intros Hn; unfold R; simpl.
  - destruct (matchAt re []) as [r |] eqn:Hm; [| reflexivity].
    exfalso. apply Hn. destruct (matchAt_sound _ _ Hm) as (u & E & Hu).
    exists [], u, r. auto.
  - destruct (matchAt re (c :: s)) as [r |] eqn:Hm.
    + exfalso. apply Hn. destruct (matchAt_sound _ _ Hm) as (u & E & Hu).
      exists [], u, r. auto.
    + f_equal. apply IH. intros (a & u & b & -> & Hu). apply Hn.
      now exists (c :: a), u, b.
Qed.

(** For a pattern that does not match the empty text, the replacement is
    the one described by [Replaced]. *)
Lemma replace_Replaced :
    ~ Match re [] -> forall s, Replaced re rep s (R s).
Proof.
  intros Hnull s.
  remember (List.length s) as n eqn:Hn. revert s Hn.
  induction n as [n IH] using lt_wf_ind. intros s ->.
  destruct (search (matchAt re) s) as [[i rest] |] eqn:Hs.
  - destruct (search_some _ _ _ Hs) as (g & u & -> & _ & Hg & Hm & Hu).
    assert (Hne : u <> []) by (intros ->; now apply Hnull).
    rewrite (replace_nostart _ _ Hg), (replace_match _ _ Hm Hne).
    apply Replaced_next; try assumption.
    + intros a v b E Hl. now apply (nostart_spec _ _ _ _ _ Hg E Hl).
    + apply (IH (List.length rest)); [| reflexivity].
      rewrite !length_app. destruct u; [easy | simpl; lia].
  - apply search_none in Hs. rewrite (replace_unmatched _ Hs).
    now apply Replaced_none.
Qed.

End ScanFacts.

(* ================================================================== *)
(** ** Texts that replacements cannot turn into matches *)
(* ================================================================== *)

Section ContainsFacts.

Import Js.

Variable re : RegExp.

Lemma Contains_inside : forall a x b,
    Contains re x -> Contains re (a ++ x ++ b).
Proof.
  intros a x b (a' & u & b' & -> & Hu).
  exists (a ++ a'), u, (b' ++ b). split; [| exact Hu].
  now rewrite <- !app_assoc.
Qed.

Lemma Contains_left : forall x y, Contains re x -> Contains re (x ++ y).
Proof. intros x y H. now apply (Contains_inside [] x y). Qed.

Lemma Contains_right : forall x y, Contains re y -> Contains re (x ++ y).
Proof.
  intros x y H. apply (Contains_inside x y []) in H.
  now rewrite app_nil_r in H.
Qed.

Lemma nullable_Contains : forall s, Match re [] -> Contains re s.
Proof. intros s H. now exists [], [], s. Qed.

(** The first code unit of a match lies in the leading character set. *)
Lemma leading_head : forall ic r cs u,
    leading r = Some cs -> lang ic r u ->
    exists x u', u = x :: u' /\ cs_mem ic cs x = true.
Proof.
  induction r as [| cs0 | a IHa b _ | a _ b _ | gr cs0 | cs0 | a _];
    intros cs u Hl Hu; simpl in Hl; try discriminate.
  - inversion Hl; subst cs0. destruct Hu as (c & -> & Hc). eauto.
  - destruct Hu as (u1 & u2 & -> & H1 & _).
    destruct (IHa cs u1 Hl H1) as (x & u' & -> & Hx). simpl. eauto.
  - inversion Hl; subst cs0. destruct Hu as [Hne Hu].
    destruct Hu as [| c u Hc _]; [easy | eauto].
Qed.

(** A text holding no code unit of the leading set holds no match. *)
Lemma leading_absent : forall cs s,
    leading (source re) = Some cs ->
    Forall (fun c => cs_mem (ignoreCase re) cs c = false) s ->
    ~ Contains re s.
Proof.
  intros cs s Hl Hs (a & u & b & -> & Hu).
  destruct (leading_head _ _ _ _ Hl Hu) as (x & u' & -> & Hx).
  apply Forall_app in Hs. destruct Hs as [_ Hs].
  inversion Hs; subst. congruence.
Qed.

Hypothesis Hplain :
  forall u, Match re u -> Forall (fun c => isDelimiter c = false) u.

(** A match cannot straddle a delimiter. *)
Lemma Contains_delimiter : forall x c y,
    isDelimiter c = true ->
    Contains re (x ++ c :: y) -> Contains re x \/ Contains re y.
Proof.
  intros x c y Hc (a & u & b & E & Hu).
  pose proof (Hplain u Hu) as Hf.
  apply app_eq_app in E. destruct E as (l & [[-> E] | [-> E]]).
  - apply app_eq_app in E. destruct E as (l2 & [[-> E] | [-> _]]).
    + destruct l2 as [| d l2].
      * left. rewrite app_nil_r in Hu. exists a, l, []. now rewrite app_nil_r.
      * inversion E; subst d. apply Forall_app in Hf. destruct Hf as [_ Hf].
        inversion Hf; subst. congruence.
    + left. exists a, u, l2. auto.
  - destruct l as [| d l]; simpl in E.
    + destruct u as [| d u]; simpl in E.
      * left. now apply nullable_Contains.
      * inversion E; subst d. inversion Hf; subst. congruence.
    + inversion E; subst. right. now exists l, u, b.
Qed.

Variables (open close : char) (mid : str).
Hypothesis Hopen : isDelimiter open = true.
Hypothesis Hclose : isDelimiter close = true.
Hypothesis Hmid : ~ Contains re mid.

Let rep : str := open :: mid ++ [close].

Lemma Contains_around_rep : forall x y,
    ~ Contains re x -> ~ Contains re y -> ~ Contains re (x ++ rep ++ y).
Proof.
  intros x y Hx Hy H. unfold rep in H. simpl in H.
  apply Contains_delimiter in H; [| exact Hopen].
  destruct H as [H | H]; [tauto |].
  rewrite <- app_assoc in H. simpl in H.
  apply Contains_delimiter in H; [| exact Hclose]. tauto.
Qed.

(** Replacing the matches of any pattern by [rep] leaves a text free of
    matches of [re] free of them. *)
Lemma Replaced_preserves : forall q s out,
    Replaced q rep s out -> ~ Contains re s -> ~ Contains re out.
Proof.
  intros q s out H; induction H as [s Hs | g u rest out Hg Hu Hne _ IH];
    intros Hn; [exact Hn |].
  apply Contains_around_rep.
  - intros Hc. apply Hn. now apply Contains_left.
  - apply IH. intros Hc. apply Hn. rewrite app_assoc. now apply Contains_right.
Qed.

(** Replacing the matches of [re] itself by [rep] leaves none. *)
Lemma Replaced_clears : forall s out,
    Replaced re rep s out -> ~ Contains re out.
Proof.
  intros s out H; induction H as [s Hs | g u rest out Hg Hu Hne _ IH];
    [exact Hs |].
  apply Contains_around_rep; [| exact IH].
  intros (a & v & b & E & Hv).
  destruct (Nat.eq_dec (List.length a) (List.length g)) as [El | Nl].
  - assert (v = []) as ->.
    { apply (f_equal (@List.length char)) in E. rewrite !length_app in E.
      destruct v; [reflexivity | simpl in E; lia]. }
    apply Hmid. now apply nullable_Contains.
  - apply (Hg a v (b ++ u ++ rest)); [| | exact Hv].
    + rewrite E. now rewrite <- !app_assoc.
    + apply (f_equal (@List.length char)) in E. rewrite !length_app in E. lia.
Qed.

End ContainsFacts.

(* ================================================================== *)
(** ** Character sets and single-character replacement *)
(* ================================================================== *)

Section CharFacts.

Import Js.
Local Open Scope N_scope.

Ltac to_prop :=
  unfold isDelimiter, isWordChar, isWhiteSpace, isLineTerminator, isDigit,
    canonicalize, between in *;
  repeat match goal with
    | H : context [if ?b then _ else _] |- _ => destruct b eqn:?
    | |- context [if ?b then _ else _] => destruct b eqn:?
    end;
  repeat (progress rewrite ?orb_true_iff, ?orb_false_iff, ?andb_true_iff,
    ?andb_false_iff, ?negb_true_iff, ?negb_false_iff, ?N.eqb_eq, ?N.eqb_neq,
    ?N.leb_le, ?N.leb_gt in *).

Lemma cs_plain_mem : forall ic cs c,
    cs_plain cs = true -> cs_mem ic cs c = true -> isDelimiter c = false.
Proof.
  intros ic [x | | | | |] c Hp Hm; simpl in *; try discriminate;
    destruct ic; to_prop; lia.
Qed.

Lemma plain_lang : forall ic r u,
    plain r = true -> lang ic r u ->
    Forall (fun c => isDelimiter c = false) u.
Proof.
  induction r as [| cs | a IHa b IHb | a IHa b IHb | gr cs | cs | a IHa];
    intros u Hp Hu; simpl in *.
  - subst u. constructor.
  - destruct Hu as (c & -> & Hc). repeat constructor.
    now apply (cs_plain_mem ic cs).
  - apply andb_true_iff in Hp. destruct Hp as [Ha Hb].
    destruct Hu as (u1 & u2 & -> & H1 & H2). apply Forall_app. auto.
  - apply andb_true_iff in Hp. destruct Hp as [Ha Hb].
    destruct Hu as [Hu | Hu]; auto.
  - eapply Forall_impl; [| exact Hu]. intros c. now apply cs_plain_mem.
  - destruct Hu as [_ Hu].
    eapply Forall_impl; [| exact Hu]. intros c. now apply cs_plain_mem.
  - destruct Hu as [Hu | ->]; [auto | constructor].
Qed.

(** Under the i flag a pattern character that is no letter is matched by
    itself only. *)
Lemma symbol_mem : forall ic x c,
    between 97 122 x = false -> between 65 90 x = false ->
    cs_mem ic (CsChar x) c = true -> c = x.
Proof.
  intros ic x c H1 H2 H; simpl in H; destruct ic; to_prop; lia.
Qed.

Lemma nonnull_by_eval : forall re, matchAt re [] = None -> ~ Match re [].
Proof.
  intros re H Hm. now apply (matchAt_complete re [] [] Hm).
Qed.

Lemma uncontained_by_eval : forall re s,
    search (matchAt re) s = None -> ~ Contains re s.
Proof. intros re s. apply search_none. Qed.

Lemma contained_by_eval : forall re s,
    search (matchAt re) s <> None -> Contains re s.
Proof.
  intros re s H. destruct (search (matchAt re) s) as [[i rest] |] eqn:Hs;
    [| easy].
  destruct (search_some _ _ _ _ Hs) as (g & u & -> & _ & _ & _ & Hu).
  now exists g, u, rest.
Qed.

Lemma replace_from_char : forall (mt : str -> option str) c rep,
    mt [] = None ->
    (forall x s, mt (x :: s) = if x =? c then Some s else None) ->
    forall s, replace_from mt rep 0 s = subst c rep s.
Proof.
  intros mt c rep Hnil Hcons; induction s as [| x s IH].
  - simpl. now rewrite Hnil.
  - cbn [replace_from]. rewrite Hcons. unfold subst; cbn [flat_map].
    fold (subst c rep s). destruct (x =? c).
    + replace (List.length (x :: s) - List.length s)%nat with 1%nat
        by (cbn [List.length]; lia).
      now rewrite IH.
    + now rewrite IH.
Qed.

(** A global replacement of one pattern character, without the i flag,
    rewrites every occurrence of that code unit. *)
Lemma replace_char : forall c rep s,
    fst (replace (mkRegExp (Atom (CsChar c)) false 0) s rep) = subst c rep s.
Proof.
  intros c rep s. unfold replace; cbn [fst].
  apply replace_from_char; [reflexivity |].
  intros x t. reflexivity.
Qed.

Lemma subst_absent : forall c rep s, ~ In c s -> subst c rep s = s.
Proof.
  intros c rep; induction s as [| x s IH]; intros Hn; [reflexivity |].
  unfold subst in *; simpl. destruct (N.eqb_spec x c) as [-> | Hx].
  - exfalso. apply Hn. now left.
  - simpl. f_equal. apply IH. intros Hi. apply Hn. now right.
Qed.

Lemma subst_removes : forall c rep s, ~ In c rep -> ~ In c (subst c rep s).
Proof.
  intros c rep s Hr; induction s as [| x s IH]; [easy |].
  unfold subst in *; simpl. rewrite in_app_iff.
  destruct (N.eqb_spec x c) as [-> | Hx]; simpl; intuition congruence.
Qed.

Lemma subst_keeps_absent : forall d c rep s,
    ~ In d rep -> ~ In d s -> ~ In d (subst c rep s).
Proof.
  intros d c rep s Hr; induction s as [| x s IH]; intros Hs; [easy |].
  unfold subst in *; simpl. rewrite in_app_iff.
  destruct (x =? c); simpl in *; intuition.
Qed.

(** Decided occurrence is occurrence. *)
Lemma prefixb_spec : forall p s,
    prefixb p s = true <-> exists b, s = p ++ b.
Proof.
  induction p as [| x p IH]; intros s; simpl.
  - split; [intros _; now exists s | reflexivity].
  - destruct s as [| y s].
    + split; [discriminate | intros (b & E); discriminate].
    + rewrite andb_true_iff, N.eqb_eq, IH. split.
      * intros (-> & b & ->). now exists b.
      * intros (b & E). inversion E; subst. split; [reflexivity | now exists b].
Qed.

Lemma includes_spec : forall s p,
    includes s p = true <-> exists a b, s = a ++ p ++ b.
Proof.
  induction s as [| y s IH]; intros p; simpl;
    rewrite orb_true_iff, prefixb_spec.
  - split.
    + intros [(b & E) | H]; [now exists [], b | discriminate].
    + intros (a & b & E). left. destruct a; [now exists b | discriminate].
  - rewrite IH. split.
    + intros [(b & E) | (a & b & ->)]; [now exists [], b |].
      now exists (y :: a), b.
    + intros (a & b & E). destruct a as [| x a]; simpl in E.
      * left. now exists b.
      * inversion E; subst. right. now exists a, b.
Qed.

End CharFacts.

(* ================================================================== *)
(** ** The sanitizer: the loop over the table *)
(* ================================================================== *)

Section LoopFacts.

Import Js Sanitizer.

(** One entry whose RegExp object has [lastIndex = 0]: the report is the
    scan of the whole input, the working copy is rewritten, and the object
    is back at [lastIndex = 0] afterwards. *)
Lemma visit_spec : forall input p w ths,
    lastIndex (pattern p) = O ->
    visit input p (w, ths)
    = (fst (replace (pattern p) w BLOCKED),
       if reports input p then ths ++ [name p] else ths,
       p).
Proof.
  intros input [[src ic li] nm sv] w ths H0; simpl in H0; subst li.
  unfold visit, reports, test; simpl.
  destruct (search _ input) as [[i rest] |]; reflexivity.
Qed.

Lemma loop_spec : forall input ps w ths,
    Forall (fun p => lastIndex (pattern p) = O) ps ->
    loop ps input (w, ths)
    = (working ps w, ths ++ map name (filter (reports input) ps), ps).
Proof.
  intros input ps; induction ps as [| p ps IH]; intros w ths Hf.
  - simpl. now rewrite app_nil_r.
  - inversion Hf as [| ? ? Hp Hps]; subst.
    cbn [loop]. rewrite (visit_spec input p w ths Hp).
    rewrite (IH _ _ Hps). cbn [working fold_left filter].
    destruct (reports input p); cbn [map]; [| reflexivity].
    now rewrite <- app_assoc.
Qed.

Lemma table_fresh :
    Forall (fun p => lastIndex (pattern p) = O) DANGEROUS_PATTERNS.
Proof. repeat constructor. Qed.

Lemma table_nonnull :
    Forall (fun p => ~ Match (pattern p) []) DANGEROUS_PATTERNS.
Proof. repeat constructor; apply nonnull_by_eval; reflexivity. Qed.

(** A call on the declared table: what it returns, and the table is left
    as declared. *)
Lemma sanitizeInput_in_table : forall input,
    sanitizeInput_in DANGEROUS_PATTERNS input
    = (mkResult (escape (working DANGEROUS_PATTERNS input))
                (map name (filter (reports input) DANGEROUS_PATTERNS)),
       DANGEROUS_PATTERNS).
Proof.
  intros input. unfold sanitizeInput_in.
  now rewrite (loop_spec input DANGEROUS_PATTERNS input [] table_fresh).
Qed.

(** So every call of a session runs on the declared table. *)
Lemma calls_independent : forall inputs,
    calls DANGEROUS_PATTERNS inputs = map sanitizeInput inputs.
Proof.
  induction inputs as [| i rest IH]; [reflexivity |].
  cbn [calls map]. unfold sanitizeInput at 1.
  rewrite sanitizeInput_in_table. cbn [fst]. now rewrite IH.
Qed.

Lemma sanitizeInput_eq : forall input,
    sanitizeInput input
    = mkResult (escape (working DANGEROUS_PATTERNS input))
               (map name (filter (reports input) DANGEROUS_PATTERNS)).
Proof.
  intros input. unfold sanitizeInput. now rewrite sanitizeInput_in_table.
Qed.

Lemma working_app : forall ps qs w,
    working (ps ++ qs) w = working qs (working ps w).
Proof. intros. unfold working. now rewrite fold_left_app. Qed.

Lemma reports_reflects : forall input p,
    In p DANGEROUS_PATTERNS ->
    (reports input p = true <-> Contains (pattern p) input).
Proof.
  intros input p Hin. apply test_reflects.
  now apply (proj1 (Forall_forall _ _) table_fresh).
Qed.

Lemma subseq_filter_map : forall (A B : Type) (f : A -> B) (t : A -> bool) l,
    subseq (map f (filter t l)) (map f l).
Proof.
  intros A B f t; induction l as [| x l IH]; simpl; [constructor |].
  destruct (t x); simpl; now constructor.
Qed.

Lemma subseq_In : forall (A : Type) (l1 l2 : list A) x,
    subseq l1 l2 -> In x l1 -> In x l2.
Proof.
  intros A l1 l2 x H; induction H; simpl; intuition.
Qed.

Lemma subseq_NoDup : forall (A : Type) (l1 l2 : list A),
    subseq l1 l2 -> NoDup l2 -> NoDup l1.
Proof.
  intros A l1 l2 H; induction H as [| x l1 l2 H IH | x l1 l2 H IH];
    intros Hn; [constructor | |]; inversion Hn; subst; auto.
  constructor; auto. intros Hi. eauto using subseq_In.
Qed.

Lemma labels_distinct : NoDup (map name DANGEROUS_PATTERNS).
Proof.
  repeat constructor; simpl; intuition discriminate.
Qed.

Lemma threats_NoDup : forall input, NoDup (threats (sanitizeInput input)).
Proof.
  intros input. rewrite sanitizeInput_eq. cbn [threats].
  eapply subseq_NoDup; [apply subseq_filter_map | apply labels_distinct].
Qed.

(** The four passes of [escape] as substitutions of code units. *)
Lemma escape_subst : forall s,
    escape s
    = subst APOS (lit "&#x27;")
        (subst QUOT (lit "&quot;")
           (subst GT (lit "&gt;") (subst LT (lit "&lt;") s))).
Proof.
  intros s. unfold escape, g. now rewrite !replace_char.
Qed.

Lemma escape_clean : forall s c,
    In c [LT; GT; QUOT; APOS] -> ~ In c (escape s).
Proof.
  intros s c Hc. rewrite escape_subst.
  assert (Hent : forall e, In e [lit "&lt;"; lit "&gt;"; lit "&quot;";
                                 lit "&#x27;"] -> ~ In c e).
  { intros e He Hi. simpl in Hc, He.
    destruct Hc as [<- | [<- | [<- | [<- | []]]]];
      destruct He as [<- | [<- | [<- | [<- | []]]]];
      vm_compute in Hi; intuition discriminate. }
  simpl in Hc. destruct Hc as [<- | [<- | [<- | [<- | []]]]].
  - do 3 (apply subst_keeps_absent; [apply Hent; simpl; tauto |]).
    apply subst_removes. apply Hent; simpl; tauto.
  - do 2 (apply subst_keeps_absent; [apply Hent; simpl; tauto |]).
    apply subst_removes. apply Hent; simpl; tauto.
  - apply subst_keeps_absent; [apply Hent; simpl; tauto |].
    apply subst_removes. apply Hent; simpl; tauto.
  - apply subst_removes. apply Hent; simpl; tauto.
Qed.

Lemma escape_fixed : forall s,
    (forall c, In c [LT; GT; QUOT; APOS] -> ~ In c s) -> escape s = s.
Proof.
  intros s H. rewrite escape_subst.
  rewrite (subst_absent LT) by (apply H; simpl; tauto).
  rewrite (subst_absent GT) by (apply H; simpl; tauto).
  rewrite (subst_absent QUOT) by (apply H; simpl; tauto).
  apply subst_absent. apply H; simpl; tauto.
Qed.

End LoopFacts.

(* ================================================================== *)
(** ** The sanitizer: order, reports and escaping *)
(* ================================================================== *)

Section SanitizerClaims.

Import Js Sanitizer.
Local Open Scope string_scope.
Local Open Scope list_scope.

Lemma name_identifies : forall p q,
    In p DANGEROUS_PATTERNS -> In q DANGEROUS_PATTERNS ->
    name p = name q -> p = q.
Proof.
  intros p q Hp Hq. simpl in Hp, Hq.
  repeat (destruct Hp as [<- | Hp]; [| try contradiction]);
    repeat (destruct Hq as [<- | Hq]; [| try contradiction]);
    intros E; solve [reflexivity | discriminate E].
Qed.

Lemma reported_iff : forall input p,
    In p DANGEROUS_PATTERNS ->
    (In (name p) (threats (sanitizeInput input))
     <-> Contains (pattern p) input).
Proof.
  intros input p Hin. rewrite sanitizeInput_eq. cbn [threats].
  rewrite <- (reports_reflects input p Hin). rewrite in_map_iff. split.
  - intros (q & E & Hq). apply filter_In in Hq. destruct Hq as [Hq Hr].
    now rewrite <- (name_identifies q p Hq Hin E).
  - intros Hr. exists p. split; [reflexivity |]. now apply filter_In.
Qed.

(** C1: [sanitizeInput] goes through the table in its declared order.
    The labels reported are those of the entries that match the input,
    in that order and once each; the working copy is rewritten by one
    entry after the other, each replacing, from the left, the matches it
    finds in the copy as the earlier entries left it.  So an entry that
    matches the input may find nothing left to replace, and an entry
    that does not match the input may find a match that an earlier
    replacement has put together. *)
Theorem sanitize_sequential :
    (forall input : str,
        threats (sanitizeInput input)
        = map name (filter (reports input) DANGEROUS_PATTERNS)
        /\ sanitized (sanitizeInput input)
           = escape (working DANGEROUS_PATTERNS input)
        /\ NoDup (threats (sanitizeInput input))
        /\ forall ps p qs,
            DANGEROUS_PATTERNS = ps ++ p :: qs ->
            (Contains (pattern p) input
             <-> In (name p) (threats (sanitizeInput input)))
            /\ working (ps ++ [p]) input
               = fst (replace (pattern p) (working ps input) BLOCKED)
            /\ Replaced (pattern p) BLOCKED
                        (working ps input) (working (ps ++ [p]) input))
    /\ (exists input ps p qs,
          DANGEROUS_PATTERNS = ps ++ p :: qs
          /\ Contains (pattern p) input
          /\ ~ Contains (pattern p) (working ps input))
    /\ (exists input ps p qs,
          DANGEROUS_PATTERNS = ps ++ p :: qs
          /\ ~ Contains (pattern p) input
          /\ Contains (pattern p) (working ps input)).
Proof.
  split; [| split].
  - intros input. rewrite sanitizeInput_eq at 1 2. cbn [threats sanitized].
    split; [reflexivity |]. split; [reflexivity |].
    split; [apply threats_NoDup |].
    intros ps p qs E.
    assert (Hin : In p DANGEROUS_PATTERNS)
      by (rewrite E; apply in_elt).
    split; [symmetry; now apply reported_iff |].
    rewrite working_app. cbn [working fold_left].
    split; [reflexivity |].
    apply replace_Replaced.
    now apply (proj1 (Forall_forall _ _) table_nonnull).
  - exists (lit "<img src=x onerror=1>"), (firstn 7 DANGEROUS_PATTERNS),
      (nth 7 DANGEROUS_PATTERNS (mkPattern (g Empty) "" high)), [].
    split; [reflexivity |]. split.
    + apply contained_by_eval. vm_compute. discriminate.
    + apply uncontained_by_eval. vm_compute. reflexivity.
  - exists (lit "<img <script>" ++ [10%N] ++ lit "</script> onerror"),
      (firstn 7 DANGEROUS_PATTERNS),
      (nth 7 DANGEROUS_PATTERNS (mkPattern (g Empty) "" high)), [].
    split; [reflexivity |]. split.
    + apply uncontained_by_eval. vm_compute. reflexivity.
    + apply contained_by_eval. vm_compute. discriminate.
Qed.

Lemma sanitize_sequential_witness :
    DANGEROUS_PATTERNS
    = firstn 2 DANGEROUS_PATTERNS
        ++ nth 2 DANGEROUS_PATTERNS (mkPattern (g Empty) "" high)
        :: skipn 3 DANGEROUS_PATTERNS
    /\ In "Event Handler"
          (threats (sanitizeInput (lit "<b onclick=go()>")))
    /\ working (firstn 3 DANGEROUS_PATTERNS) (lit "<b onclick=go()>")
       = lit "<b [BLOCKED]go()>".
Proof.
  split; [reflexivity |].
  destruct sanitize_sequential as [H _].
  destruct (H (lit "<b onclick=go()>")) as (_ & _ & _ & Hp).
  destruct (Hp (firstn 2 DANGEROUS_PATTERNS)
               (nth 2 DANGEROUS_PATTERNS (mkPattern (g Empty) "" high))
               (skipn 3 DANGEROUS_PATTERNS) eq_refl) as (Hrep & Hw & _).
  split.
  - apply Hrep. apply contained_by_eval. vm_compute. discriminate.
  - change (firstn 3 DANGEROUS_PATTERNS)
      with (firstn 2 DANGEROUS_PATTERNS
              ++ [nth 2 DANGEROUS_PATTERNS (mkPattern (g Empty) "" high)]).
    rewrite Hw. vm_compute. reflexivity.
Defined.

(** C7: on the text <script>alert(1)</script> the report holds the label
    of the script-tag entry and the sanitized text does not contain
    <script>; on the empty text both the sanitized text and the report
    are empty. *)
Theorem script_tag_and_empty :
    sanitizeInput (lit "<script>alert(1)</script>")
    = mkResult (lit "[BLOCKED]") ["XSS Script Tag"]
    /\ In "XSS Script Tag"
          (threats (sanitizeInput (lit "<script>alert(1)</script>")))
    /\ (~ exists a b,
           sanitized (sanitizeInput (lit "<script>alert(1)</script>"))
           = a ++ lit "<script>" ++ b)
    /\ sanitizeInput (lit "") = mkResult [] [].
Proof.
  split; [vm_compute; reflexivity |].
  split; [vm_compute; tauto |].
  split; [| vm_compute; reflexivity].
  intros H. apply includes_spec in H. vm_compute in H. discriminate.
Qed.

(** C8: the report is a selection, in table order, of the labels of the
    table, and no label occurs in it twice. *)
Theorem threats_in_table_order : forall input : str,
    subseq (threats (sanitizeInput input)) (map name DANGEROUS_PATTERNS)
    /\ NoDup (threats (sanitizeInput input)).
Proof.
  intros input. split; [| apply threats_NoDup].
  rewrite sanitizeInput_eq. cbn [threats]. apply subseq_filter_map.
Qed.

(** C9: the sanitized text holds none of the code units of the less-than
    sign, the greater-than sign, the double quote and the single quote:
    the last step rewrites every occurrence of each to its entity. *)
Theorem sanitized_has_no_markup : forall input : str,
    sanitized (sanitizeInput input)
    = subst APOS (lit "&#x27;")
        (subst QUOT (lit "&quot;")
           (subst GT (lit "&gt;")
              (subst LT (lit "&lt;") (working DANGEROUS_PATTERNS input))))
    /\ ~ In LT (sanitized (sanitizeInput input))
    /\ ~ In GT (sanitized (sanitizeInput input))
    /\ ~ In QUOT (sanitized (sanitizeInput input))
    /\ ~ In APOS (sanitized (sanitizeInput input)).
Proof.
  intros input. rewrite sanitizeInput_eq. cbn [sanitized].
  split; [apply escape_subst |].
  repeat split; apply escape_clean; simpl; tauto.
Qed.

End SanitizerClaims.

(* ================================================================== *)
(** ** Sanitizing a sanitized text *)
(* ================================================================== *)

Section Resanitize.

Import Js Sanitizer.
Local Open Scope string_scope.
Local Open Scope list_scope.

Lemma inert_plain : forall re u,
    inert re = true -> Match re u ->
    Forall (fun c => isDelimiter c = false) u.
Proof.
  intros re u H Hu. unfold inert in H. apply andb_true_iff in H.
  now apply (plain_lang (ignoreCase re) (source re) u (proj1 H)).
Qed.

Lemma inert_interior : forall re t,
    inert re = true -> In t INTERIORS -> ~ Contains re t.
Proof.
  intros re t H Ht. unfold inert in H. apply andb_true_iff in H.
  destruct H as [_ H]. rewrite forallb_forall in H. specialize (H t Ht).
  apply uncontained_by_eval. now destruct (search (matchAt re) t).
Qed.

Lemma inert_nonnull : forall re, inert re = true -> ~ Match re [].
Proof.
  intros re H Hn. apply (inert_interior re (lit "BLOCKED") H).
  - simpl. tauto.
  - now apply nullable_Contains.
Qed.

(** A replacement by a delimited text cannot complete a match of an
    inert entry. *)
Lemma inert_replace : forall re q open close mid s,
    inert re = true -> In mid INTERIORS ->
    isDelimiter open = true -> isDelimiter close = true ->
    ~ Match q [] -> ~ Contains re s ->
    ~ Contains re (fst (replace q s (open :: mid ++ [close]))).
Proof.
  intros re q open close mid s Hi Hm Ho Hc Hq Hs.
  apply (Replaced_preserves re (fun u => inert_plain re u Hi)
           open close mid Ho Hc (inert_interior re mid Hi Hm) q s);
    [| exact Hs].
  unfold replace; cbn [fst]. now apply replace_Replaced.
Qed.

(** The replacement of an inert entry by the placeholder leaves no match
    of it. *)
Lemma inert_clears : forall re s,
    inert re = true -> ~ Contains re (fst (replace re s BLOCKED)).
Proof.
  intros re s Hi.
  apply (Replaced_clears re (fun u => inert_plain re u Hi)
           91%N 93%N (lit "BLOCKED") eq_refl eq_refl
           (inert_interior re _ Hi (or_introl eq_refl)) s).
  unfold replace; cbn [fst].
  apply (replace_Replaced re BLOCKED (inert_nonnull re Hi)).
Qed.

Lemma inert_working : forall re qs,
    inert re = true ->
    Forall (fun p => ~ Match (pattern p) []) qs ->
    forall w, ~ Contains re w -> ~ Contains re (working qs w).
Proof.
  intros re qs Hi Hq; induction Hq as [| p qs Hp _ IH]; intros w Hw;
    [exact Hw |].
  cbn [working fold_left]. apply IH.
  apply (inert_replace re (pattern p) 91%N 93%N (lit "BLOCKED") w Hi);
    simpl; auto.
Qed.

Lemma inert_escape : forall re s,
    inert re = true -> ~ Contains re s -> ~ Contains re (escape s).
Proof.
  intros re s Hi Hs. unfold escape.
  apply (inert_replace re _ 38%N 59%N (lit "#x27") _ Hi);
    [simpl; tauto | reflexivity | reflexivity
     | apply nonnull_by_eval; reflexivity |].
  apply (inert_replace re _ 38%N 59%N (lit "quot") _ Hi);
    [simpl; tauto | reflexivity | reflexivity
     | apply nonnull_by_eval; reflexivity |].
  apply (inert_replace re _ 38%N 59%N (lit "gt") _ Hi);
    [simpl; tauto | reflexivity | reflexivity
     | apply nonnull_by_eval; reflexivity |].
  apply (inert_replace re _ 38%N 59%N (lit "lt") _ Hi);
    [simpl; tauto | reflexivity | reflexivity
     | apply nonnull_by_eval; reflexivity | exact Hs].
Qed.

(** An inert entry finds nothing in a sanitized text. *)
Lemma inert_final : forall input ps p qs,
    DANGEROUS_PATTERNS = ps ++ p :: qs -> inert (pattern p) = true ->
    ~ Contains (pattern p) (escape (working DANGEROUS_PATTERNS input)).
Proof.
  intros input ps p qs E Hi. apply inert_escape; [exact Hi |].
  pose proof table_nonnull as Hn. rewrite E in Hn |- *.
  apply Forall_app in Hn. destruct Hn as [_ Hn].
  inversion Hn as [| ? ? _ Hq]; subst.
  rewrite working_app. cbn [working fold_left].
  apply (inert_working (pattern p) qs Hi Hq). now apply inert_clears.
Qed.

(** An entry that begins with the less-than sign or the single quote
    finds nothing in an escaped text. *)
Lemma marked_final : forall re x w,
    leading (source re) = Some (CsChar x) -> In x [LT; APOS] ->
    ~ Contains re (escape w).
Proof.
  intros re x w Hl Hx. apply (leading_absent re (CsChar x) _ Hl).
  apply Forall_forall. intros c Hc.
  destruct (cs_mem (ignoreCase re) (CsChar x) c) eqn:Hm; [| reflexivity].
  exfalso. apply (escape_clean w x); [simpl in *; tauto |].
  assert (c = x) as <-; [| exact Hc].
  apply (symbol_mem (ignoreCase re) x c); [| | exact Hm];
    simpl in Hx; destruct Hx as [<- | [<- | []]]; reflexivity.
Qed.

(** In a sanitized text only the Command Injection entry can match. *)
Lemma others_silent : forall input p,
    In p DANGEROUS_PATTERNS -> name p <> "Command Injection" ->
    ~ Contains (pattern p) (escape (working DANGEROUS_PATTERNS input)).
Proof.
  intros input p Hin Hname. simpl in Hin.
  destruct Hin as [<- | [<- | [<- | [<- | [<- | [<- | [<- | [<- | []]]]]]]]].
  - apply (marked_final _ LT); [reflexivity | simpl; tauto].
  - apply (inert_final input (firstn 1 DANGEROUS_PATTERNS) _
             (skipn 2 DANGEROUS_PATTERNS)); reflexivity.
  - apply (inert_final input (firstn 2 DANGEROUS_PATTERNS) _
             (skipn 3 DANGEROUS_PATTERNS)); reflexivity.
  - apply (marked_final _ APOS); [reflexivity | simpl; tauto].
  - now contradiction Hname.
  - apply (inert_final input (firstn 5 DANGEROUS_PATTERNS) _
             (skipn 6 DANGEROUS_PATTERNS)); reflexivity.
  - apply (marked_final _ LT); [reflexivity | simpl; tauto].
  - apply (marked_final _ LT); [reflexivity | simpl; tauto].
Qed.

Lemma working_unmatched : forall ps w,
    (forall p, In p ps -> ~ Contains (pattern p) w) -> working ps w = w.
Proof.
  induction ps as [| p ps IH]; intros w H; [reflexivity |].
  change (working (p :: ps) w)
    with (working ps (fst (replace (pattern p) w BLOCKED))).
  assert (E : fst (replace (pattern p) w BLOCKED) = w)
    by (apply (replace_unmatched (pattern p) BLOCKED w); apply H; now left).
  rewrite E. apply IH. intros q Hq. apply H. now right.
Qed.

Lemma filter_none : forall (A : Type) (f : A -> bool) l,
    (forall x, In x l -> f x = false) -> filter f l = [].
Proof.
  intros A f; induction l as [| x l IH]; intros H; [reflexivity |].
  simpl. rewrite (H x) by now left. apply IH. intros y Hy. apply H. now right.
Qed.

Lemma command_injection_entry :
    exists p, In p DANGEROUS_PATTERNS /\ name p = "Command Injection"
              /\ pattern p = COMMAND_INJECTION.
Proof.
  exists (nth 4 DANGEROUS_PATTERNS (mkPattern (g Empty) "" high)).
  split; [simpl; tauto | split; reflexivity].
Qed.

(** The claim of C3 fails on the text 'rm: its sanitized form is
    &#x27;rm, in which the Command Injection entry matches ;rm. *)
Lemma resanitize_changes :
    ~ (threats (sanitizeInput (sanitized (sanitizeInput (lit "'rm")))) = []
       /\ sanitized (sanitizeInput (sanitized (sanitizeInput (lit "'rm"))))
          = sanitized (sanitizeInput (lit "'rm"))).
Proof. vm_compute. intros [H _]. discriminate H. Qed.

Example apostrophe_rm_values :
    sanitizeInput (lit "'rm") = mkResult (lit "&#x27;rm") []
    /\ sanitizeInput (lit "&#x27;rm")
       = mkResult (lit "&#x27[BLOCKED]") ["Command Injection"].
Proof. split; vm_compute; reflexivity. Qed.

(** C3, amended: sanitizing a sanitized text reports nothing and returns
    the text as it is exactly when the Command Injection entry finds no
    match in it; no other entry and no escaping pass can act on a
    sanitized text. *)
Theorem resanitize_fixed_iff : forall input : str,
    (threats (sanitizeInput (sanitized (sanitizeInput input))) = []
     /\ sanitized (sanitizeInput (sanitized (sanitizeInput input)))
        = sanitized (sanitizeInput input))
    <-> ~ Contains COMMAND_INJECTION (sanitized (sanitizeInput input)).
Proof.
  intros input.
  destruct command_injection_entry as (ci & Hci & Hname & Hpat).
  rewrite (sanitizeInput_eq input). cbn [sanitized].
  set (T := escape (working DANGEROUS_PATTERNS input)).
  split.
  - intros [Hth _] Hc. rewrite <- Hpat in Hc.
    apply (reported_iff T ci Hci) in Hc. rewrite Hth in Hc. exact Hc.
  - intros Hn.
    assert (Hall : forall p, In p DANGEROUS_PATTERNS ->
                             ~ Contains (pattern p) T).
    { intros p Hp. destruct (string_dec (name p) "Command Injection") as [E | E].
      - rewrite <- Hname in E.
        rewrite (name_identifies p ci Hp Hci E), Hpat. exact Hn.
      - now apply others_silent. }
    rewrite (sanitizeInput_eq T). cbn [threats sanitized]. split.
    + rewrite filter_none; [reflexivity |].
      intros p Hp. destruct (reports T p) eqn:Hr; [| reflexivity].
      exfalso. apply (Hall p Hp). now apply reports_reflects.
    + rewrite (working_unmatched _ _ Hall).
      apply escape_fixed. intros c Hc. now apply escape_clean.
Qed.

Lemma resanitize_fixed_iff_witness :
    ~ Contains COMMAND_INJECTION
        (sanitized (sanitizeInput (lit "<a href='x'>; ls")))
    /\ threats (sanitizeInput
                  (sanitized (sanitizeInput (lit "<a href='x'>; ls")))) = []
    /\ sanitized (sanitizeInput
                    (sanitized (sanitizeInput (lit "<a href='x'>; ls"))))
       = sanitized (sanitizeInput (lit "<a href='x'>; ls")).
Proof.
  assert (H : ~ Contains COMMAND_INJECTION
                (sanitized (sanitizeInput (lit "<a href='x'>; ls"))))
    by (apply uncontained_by_eval; vm_compute; reflexivity).
  split; [exact H |].
  exact (proj2 (resanitize_fixed_iff (lit "<a href='x'>; ls")) H).
Defined.

End Resanitize.

(* ================================================================== *)
(** ** More on the rate-limit window *)
(* ================================================================== *)

Section RateLimitMore.

Import RateLimit.
Local Open Scope Z_scope.

(** A countdown that has not run out yet has only lowered the timer. *)
Lemma ticks_partial : forall n r t,
    Z.of_nat n < t ->
    ticks n (mkState r true t) = mkState r true (t - Z.of_nat n).
Proof.
  induction n as [| n IH]; intros r t Hn.
  - simpl. f_equal. lia.
  - rewrite ticks_S. unfold tick; cbn [blocked timeToReset requests andb].
    destruct (0 <? t) eqn:Hpos; [| apply Z.ltb_ge in Hpos; lia].
    destruct (t <=? 1) eqn:Hone; [apply Z.leb_le in Hone; lia |].
    rewrite IH by lia. f_equal. lia.
Qed.

Lemma reachable_clicks : forall n, reachable (clicks n initial).
Proof.
  induction n as [| n IH]; [apply reach_initial |].
  rewrite clicks_S. exact (reach_step RecordEvent _ IH).
Qed.

Lemma reachable_ticks : forall n s, reachable s -> reachable (ticks n s).
Proof.
  induction n as [| n IH]; intros s Hs; [exact Hs |].
  rewrite ticks_S. apply IH. exact (reach_step Tick _ Hs).
Qed.

Lemma shape_reachable : forall s, shape s -> reachable s.
Proof.
  intros [r b t] [(Hb & Hr & Ht) | (Hb & Hr & Ht)];
    cbn [blocked requests timeToReset] in *; subst;
    unfold MAX_REQUESTS, RESET_TIME in *.
  - replace (mkState r false 0) with (clicks (Z.to_nat r) initial).
    + apply reachable_clicks.
    + rewrite clicks_counting by (unfold MAX_REQUESTS; lia).
      f_equal. lia.
  - replace (mkState 10 true t)
      with (ticks (Z.to_nat (30 - t)) (clicks 10 initial)).
    + apply reachable_ticks, reachable_clicks.
    + change (clicks 10 initial) with (mkState 10 true 30).
      rewrite ticks_partial by lia. f_equal. lia.
Qed.

(** X1: the states the component can be in are exactly these forty: not
    blocked with 0 to 9 requests counted and the timer at 0, or blocked
    with 10 requests counted and the timer between 1 and 30. *)
Theorem reachable_iff_shape : forall s : State,
    reachable s
    <-> (blocked s = false /\ 0 <= requests s < MAX_REQUESTS
         /\ timeToReset s = 0)
        \/ (blocked s = true /\ requests s = MAX_REQUESTS
            /\ 0 < timeToReset s <= RESET_TIME).
Proof.
  intros s. split; [apply reachable_shape | apply shape_reachable].
Qed.

(** X2: a block lasts exactly as many seconds as the timer shows: from a
    blocked state the component has reached, the window is still blocked
    after [n] firings of the interval exactly when [n] is below
    [timeToReset]. *)
Theorem block_lasts_exactly : forall (ops : list Op) (n : nat),
    blocked (run ops initial) = true ->
    (blocked (ticks n (run ops initial)) = true
     <-> Z.of_nat n < timeToReset (run ops initial)).
Proof.
  intros ops n Hb.
  pose proof (reachable_blocked_timer _ (reachable_run ops) Hb) as Ht.
  destruct (run ops initial) as [r b t]; cbn [blocked timeToReset] in *.
  subst b. destruct (Z.lt_ge_cases (Z.of_nat n) t) as [Hlt | Hge].
  - rewrite ticks_partial by exact Hlt. cbn [blocked]. tauto.
  - rewrite ticks_countdown
      by (cbn [blocked timeToReset]; first [reflexivity | lia]).
    cbn [blocked]. split; [discriminate | lia].
Qed.

Lemma block_lasts_exactly_witness :
    blocked (run (repeat RecordEvent 10) initial) = true
    /\ blocked (ticks 29 (run (repeat RecordEvent 10) initial)) = true
    /\ blocked (ticks 30 (run (repeat RecordEvent 10) initial)) = false.
Proof.
  assert (Hb : blocked (run (repeat RecordEvent 10) initial) = true)
    by reflexivity.
  split; [exact Hb |]. split.
  - apply (proj2 (block_lasts_exactly (repeat RecordEvent 10) 29 Hb)).
    vm_compute. reflexivity.
  - destruct (blocked (ticks 30 (run (repeat RecordEvent 10) initial))) eqn:E;
      [| reflexivity].
    apply (proj1 (block_lasts_exactly (repeat RecordEvent 10) 30 Hb)) in E.
    vm_compute in E. discriminate E.
Defined.

End RateLimitMore.

(* ================================================================== *)
(** ** The terminal *)
(* ================================================================== *)

Section TerminalFacts.

Import JsArray Terminal.

Lemma terminal_run_snoc : forall autoPlay lines0 es e,
    run autoPlay lines0 (es ++ [e])
    = step autoPlay e (run autoPlay lines0 es).
Proof. intros. unfold run. now rewrite fold_left_app. Qed.


Lemma timeouts_reveal : forall lines k,
    run true lines (repeat Timeout k) = (lines, Nat.min k (List.length lines)).
Proof.
  intros lines; induction k as [| k IH]; [reflexivity |].
  replace (repeat Timeout (S k)) with (repeat Timeout k ++ [Timeout])
    by (rewrite <- repeat_cons; reflexivity).
  rewrite terminal_run_snoc, IH. unfold step, timeout; cbn [fst snd negb orb].
  destruct (List.length lines <=? Nat.min k (List.length lines))%nat eqn:E.
  - apply Nat.leb_le in E. f_equal. lia.
  - apply Nat.leb_gt in E. f_equal. lia.
Qed.

(** X4: with [autoPlay] on and [lines] unchanged, each timeout reveals one
    more line until all are drawn, and later timeouts change nothing;
    the cursor shows exactly while a line is still hidden. *)
Theorem terminal_autoplay : forall (lines : list TerminalLine) (k : nat),
    rendered (fst (run true lines (repeat Timeout k)))
             (snd (run true lines (repeat Timeout k)))
    = firstn k lines
    /\ (cursor true lines (snd (run true lines (repeat Timeout k))) = true
        <-> (k < List.length lines)%nat).
Proof.
  intros lines k. rewrite timeouts_reveal. cbn [fst snd]. split.
  - unfold rendered, slice_first.
    destruct (Nat.le_ge_cases k (List.length lines)) as [H | H].
    + now rewrite Nat.min_l.
    + rewrite Nat.min_r by exact H.
      now rewrite !firstn_all2 by lia.
  - unfold cursor; cbn [andb]. rewrite Nat.ltb_lt. lia.
Qed.

End TerminalFacts.

(* ================================================================== *)
(** ** The rate-limit component: log, status and button *)
(* ================================================================== *)

Section RateLimitUIFacts.

Import Js JsArray RateLimit RateLimitUI.
Local Open Scope Z_scope.

Lemma length_slice_last : forall (A : Type) n (a : list A),
    List.length (slice_last n a) = Nat.min n (List.length a).
Proof. intros. unfold slice_last. rewrite length_skipn. lia. Qed.

Lemma length_addLog : forall t c prev,
    List.length (addLog t c prev) = S (Nat.min 8 (List.length prev)).
Proof.
  intros. unfold addLog. rewrite length_app, length_slice_last. simpl. lia.
Qed.

Lemma state_handleRequest : forall c,
    state (RateLimitUI.handleRequest c) = RateLimit.handleRequest (state c).
Proof.
  intros [s l]. unfold RateLimitUI.handleRequest, RateLimit.handleRequest.
  cbn [state logs]. destruct (blocked s); [reflexivity |].
  destruct (MAX_REQUESTS <=? requests s + 1); [reflexivity |].
  destruct (WARN_AT <=? requests s + 1); reflexivity.
Qed.

Lemma state_press : forall c,
    state (press c) = RateLimit.handleRequest (state c).
Proof.
  intros c. unfold press. destruct (blocked (state c)) eqn:Hb.
  - unfold RateLimit.handleRequest. now rewrite Hb.
  - apply state_handleRequest.
Qed.

Lemma state_tick : forall c,
    state (RateLimitUI.tick c) = RateLimit.tick (state c).
Proof.
  intros [s l]. unfold RateLimitUI.tick, RateLimit.tick. cbn [state logs].
  destruct (blocked s && (0 <? timeToReset s))%bool; [| reflexivity].
  destruct (timeToReset s <=? 1); reflexivity.
Qed.

Lemma ui_run_snoc : forall es e c,
    RateLimitUI.run (es ++ [e]) c = RateLimitUI.step e (RateLimitUI.run es c).
Proof. intros. unfold RateLimitUI.run. now rewrite fold_left_app. Qed.

Lemma state_run : forall es c,
    state (RateLimitUI.run es c) = RateLimit.run (map op es) (state c).
Proof.
  induction es as [| e es IH] using rev_ind; intros c; [reflexivity |].
  rewrite ui_run_snoc, map_app. cbn [map]. rewrite run_snoc, <- IH.
  destruct e; [apply state_press | apply state_handleRequest | apply state_tick].
Qed.

(** What an event does to the log: nothing, one line, or two. *)
Lemma step_logs : forall e c,
    logs (RateLimitUI.step e c) = logs c
    \/ (exists t x, logs (RateLimitUI.step e c) = addLog t x (logs c))
    \/ (exists t x t' x',
           logs (RateLimitUI.step e c)
           = addLog t x (addLog t' x' (logs c))).
Proof.
  intros e [s l].
  destruct e; unfold RateLimitUI.step, press, RateLimitUI.handleRequest,
    RateLimitUI.tick; cbn [state logs];
    repeat match goal with
      | |- context [if ?b then _ else _] => destruct b
      end; cbn [logs]; eauto 8.
Qed.

Lemma logs_between : forall es,
    (2 <= List.length (logs (RateLimitUI.run es RateLimitUI.initial)) <= 9)%nat.
Proof.
  induction es as [| e es IH] using rev_ind; [simpl; lia |].
  rewrite ui_run_snoc.
  destruct (step_logs e (RateLimitUI.run es RateLimitUI.initial))
    as [E | [(t & x & E) | (t & x & t' & x' & E)]]; rewrite E.
  - exact IH.
  - rewrite length_addLog. lia.
  - rewrite !length_addLog. lia.
Qed.

(** X5: the log never holds fewer than 2 or more than 9 lines, and every
    line that [addLog] appends to a log of 8 lines or more pushes the
    oldest one out. *)
Theorem logs_bounded : forall es : list Event,
    (2 <= List.length (logs (RateLimitUI.run es RateLimitUI.initial)) <= 9)%nat
    /\ forall t c,
        List.length
          (addLog t c (logs (RateLimitUI.run es RateLimitUI.initial)))
        = S (Nat.min 8 (List.length
                          (logs (RateLimitUI.run es RateLimitUI.initial)))).
Proof.
  intros es. split; [apply logs_between |].
  intros t c. apply length_addLog.
Qed.

(** X6: the badge follows the counter: over the states the component
    reaches, the status is "protected" up to 6 requests, "warning" from 7
    to 9, and "threat" exactly at 10, where the window is blocked. *)
Theorem status_thresholds : forall es : list Event,
    (status (state (RateLimitUI.run es RateLimitUI.initial))
     = SecurityCard.protected
     <-> requests (state (RateLimitUI.run es RateLimitUI.initial)) <= 6)
    /\ (status (state (RateLimitUI.run es RateLimitUI.initial))
        = SecurityCard.warning
        <-> 7 <= requests (state (RateLimitUI.run es RateLimitUI.initial)) <= 9)
    /\ (status (state (RateLimitUI.run es RateLimitUI.initial))
        = SecurityCard.threat
        <-> requests (state (RateLimitUI.run es RateLimitUI.initial)) = 10).
Proof.
  intros es. rewrite state_run.
  pose proof (reachable_shape _ (reachable_run (map op es))) as Hs.
  change (state RateLimitUI.initial) with RateLimit.initial.
  destruct (RateLimit.run (map op es) RateLimit.initial) as [r b t].
  unfold shape, status, WARN_AT, MAX_REQUESTS, RESET_TIME in *;
    cbn [blocked requests timeToReset] in *.
  destruct Hs as [(-> & Hr & _) | (-> & -> & _)].
  - destruct (7 <=? r) eqn:E;
      [apply Z.leb_le in E | apply Z.leb_gt in E];
      repeat split; intros; try discriminate; try lia; try reflexivity.
  - repeat split; intros; try discriminate; try lia; try reflexivity.
Qed.

(** X7: after [handleRequest] the last line of the log and the badge
    agree: an "error" line with "threat", a "warning" line with "warning",
    an "input" line with "protected". *)
Theorem last_line_matches_status :
    forall (c : Component) (d : Terminal.TerminalLine),
    Terminal.type (last (logs (RateLimitUI.handleRequest c)) d)
    = match status (state (RateLimitUI.handleRequest c)) with
      | SecurityCard.threat => Terminal.error
      | SecurityCard.warning => Terminal.warning
      | SecurityCard.protected => Terminal.input
      end.
Proof.
  intros [[r b t] l] d.
  unfold RateLimitUI.handleRequest, status, addLog;
    cbn [state logs blocked requests timeToReset].
  repeat (match goal with
          | |- context [if ?x then _ else _] => destruct x eqn:?
          end; cbn [state logs blocked requests timeToReset]);
    rewrite ?last_last; solve [reflexivity | congruence].
Qed.

End RateLimitUIFacts.

Section RateLimitUILines.

Import Js JsArray RateLimit RateLimitUI.
Local Open Scope N_scope.

(** An interpolated number is made of digits, after a minus sign when it
    is negative. *)
Lemma uint_chars : forall d,
    Forall (fun c => c = 45 \/ 48 <= c <= 57)
           (lit (NilEmpty.string_of_uint d)).
Proof.
  induction d; [constructor | ..];
    (apply Forall_cons; [right; vm_compute; split; discriminate | exact IHd]).
Qed.

Lemma num_chars : forall z,
    Forall (fun c => c = 45 \/ 48 <= c <= 57) (num z).
Proof.
  assert (Hz : forall d, Forall (fun c => c = 45 \/ 48 <= c <= 57)
                               (lit (NilZero.string_of_uint d))).
  { intros d. destruct d; try apply uint_chars.
    apply Forall_cons; [right; vm_compute; split; discriminate | constructor]. }
  intros z. unfold num. destruct (Z.to_int z) as [d | d].
  - apply Hz.
  - apply Forall_cons; [now left | apply Hz].
Qed.

Lemma prefixb_app : forall a p s, prefixb (a ++ p) (a ++ s) = prefixb p s.
Proof.
  induction a as [| x a IH]; intros p s; [reflexivity |].
  simpl. now rewrite N.eqb_refl, IH.
Qed.

Lemma request_line_not_blocked : forall z rest,
    prefixb (lit "Request BLOCKED") (lit "Request " ++ num z ++ lit "/" ++ rest)
    = false.
Proof.
  intros z rest.
  change (lit "Request BLOCKED") with (lit "Request " ++ 66 :: lit "LOCKED").
  rewrite prefixb_app. pose proof (num_chars z) as H.
  destruct (num z) as [| c l]; [reflexivity |].
  inversion H as [| ? ? Hc _]; subst. cbn [app prefixb].
  replace (66 =? c) with false; [reflexivity |].
  symmetry. apply N.eqb_neq. lia.
Qed.

Lemma Forall_slice_last : forall (A : Type) (P : A -> Prop) n (a : list A),
    Forall P a -> Forall P (slice_last n a).
Proof.
  intros A P n a H. unfold slice_last.
  rewrite <- (firstn_skipn (List.length a - n) a) in H.
  now apply Forall_app in H.
Qed.

Lemma Forall_addLog : forall (P : Terminal.TerminalLine -> Prop) t c prev,
    Forall P prev -> P (Terminal.line t c) -> Forall P (addLog t c prev).
Proof.
  intros P t c prev H Hc. unfold addLog. apply Forall_app. split.
  - now apply Forall_slice_last.
  - now constructor.
Qed.

(** X8: the button is disabled while blocked, so a run made of presses and
    seconds never takes the blocked branch of [handleRequest]: no line that
    begins with "Request BLOCKED" is ever logged, and the counters are
    those of the same run with the handler invoked at every press. *)
Theorem button_never_logs_blocked : forall es : list Event,
    ~ In Request es ->
    Forall (fun l => prefixb (lit "Request BLOCKED") (Terminal.content l)
                     = false)
           (logs (RateLimitUI.run es RateLimitUI.initial))
    /\ state (RateLimitUI.run es RateLimitUI.initial)
       = RateLimit.run (map op es) RateLimit.initial.
Proof.
  intros es Hes. split; [| apply state_run].
  induction es as [| e es IH] using rev_ind.
  - repeat constructor.
  - rewrite ui_run_snoc.
    assert (He : e <> Request) by (intros ->; apply Hes, in_elt).
    assert (IH' : ~ In Request es)
      by (intros Hi; apply Hes, in_or_app; now left).
    specialize (IH IH').
    destruct (RateLimitUI.run es RateLimitUI.initial) as [[r b t] l].
    cbn [logs] in IH.
    destruct e; [| congruence |].
    + unfold RateLimitUI.step, press, RateLimitUI.handleRequest.
      cbn [state logs blocked requests timeToReset].
      destruct b; [exact IH |].
      repeat match goal with
        | |- context [if ?x then _ else _] => destruct x
        end; cbn [logs]; repeat apply Forall_addLog; try exact IH;
        cbn [Terminal.content Terminal.line];
        solve [reflexivity | apply request_line_not_blocked].
    + unfold RateLimitUI.step, RateLimitUI.tick.
      cbn [state logs blocked requests timeToReset].
      repeat match goal with
        | |- context [if ?x then _ else _] => destruct x
        end; cbn [logs]; try exact IH.
      apply Forall_addLog; [exact IH | reflexivity].
Qed.

Lemma button_never_logs_blocked_witness :
    ~ In Request (repeat Press 12 ++ [Second; Press])
    /\ Forall (fun l => prefixb (lit "Request BLOCKED") (Terminal.content l)
                        = false)
              (logs (RateLimitUI.run (repeat Press 12 ++ [Second; Press])
                                     RateLimitUI.initial)).
Proof.
  assert (H : ~ In Request (repeat Press 12 ++ [Second; Press]))
    by (simpl; intuition discriminate).
  split; [exact H |].
  exact (proj1 (button_never_logs_blocked _ H)).
Defined.

(** X9: the terminal of the component is mounted on the two initial lines
    with [autoPlay] off, so it goes on drawing the first two lines of the
    log: whenever an event writes to the log, the log then holds at least
    three lines and the line just written is not among the lines drawn. *)
Theorem newest_line_not_shown : forall (es : list Event) (e : Event),
    logs (RateLimitUI.step e (RateLimitUI.run es RateLimitUI.initial))
    = logs (RateLimitUI.run es RateLimitUI.initial)
    \/ ((3 <= List.length
                (logs (RateLimitUI.step
                         e (RateLimitUI.run es RateLimitUI.initial))))%nat
        /\ shown (RateLimitUI.step e (RateLimitUI.run es RateLimitUI.initial))
           = firstn 2
               (logs (RateLimitUI.step
                        e (RateLimitUI.run es RateLimitUI.initial)))
        /\ nth_error
             (shown (RateLimitUI.step
                       e (RateLimitUI.run es RateLimitUI.initial)))
             (List.length
                (logs (RateLimitUI.step
                         e (RateLimitUI.run es RateLimitUI.initial))) - 1)
           = None).
Proof.
  intros es e.
  pose proof (logs_between es) as Hb.
  set (c := RateLimitUI.run es RateLimitUI.initial) in *.
  assert (Hshown : forall c', shown c' = firstn 2 (logs c')) by reflexivity.
  destruct (step_logs e c) as [E | H]; [now left | right].
  assert (Hlen : (3 <= List.length (logs (RateLimitUI.step e c)))%nat).
  { destruct H as [(t & x & E) | (t & x & t' & x' & E)]; rewrite E;
      rewrite !length_addLog; lia. }
  split; [exact Hlen |]. split; [apply Hshown |].
  apply nth_error_None. rewrite Hshown, length_firstn. lia.
Qed.

End RateLimitUILines.

(* ================================================================== *)
(** ** More on the sanitizer *)
(* ================================================================== *)

Section SanitizerMore.

Import Js Sanitizer.
Local Open Scope string_scope.
Local Open Scope list_scope.

Lemma filter_nil_inv : forall (A : Type) (f : A -> bool) l,
    filter f l = [] -> forall x, In x l -> f x = false.
Proof.
  intros A f; induction l as [| y l IH]; intros H x Hx; [easy |].
  simpl in H. destruct (f y) eqn:Hy; [discriminate |].
  destruct Hx as [<- | Hx]; [exact Hy | now apply IH].
Qed.

Lemma threats_nil_iff : forall input,
    threats (sanitizeInput input) = []
    <-> forall p, In p DANGEROUS_PATTERNS -> ~ Contains (pattern p) input.
Proof.
  intros input. rewrite sanitizeInput_eq. cbn [threats]. split.
  - intros H p Hp Hc. apply (reports_reflects input p Hp) in Hc.
    apply map_eq_nil in H.
    rewrite (filter_nil_inv _ _ _ H p Hp) in Hc. discriminate.
  - intros H. rewrite filter_none; [reflexivity |].
    intros p Hp. destruct (reports input p) eqn:Hr; [| reflexivity].
    exfalso. apply (H p Hp). now apply reports_reflects.
Qed.

(** X10: nothing is reported exactly when no entry of the table matches
    the input, and then no replacement is made either: the sanitized text
    is the input with its four characters escaped. *)
Theorem no_threat_only_escapes : forall input : str,
    (threats (sanitizeInput input) = []
     <-> forall p, In p DANGEROUS_PATTERNS -> ~ Contains (pattern p) input)
    /\ (threats (sanitizeInput input) = [] ->
        sanitized (sanitizeInput input) = escape input).
Proof.
  intros input. split; [apply threats_nil_iff |].
  intros H. pose proof (proj1 (threats_nil_iff input) H) as Hall.
  rewrite sanitizeInput_eq. cbn [sanitized].
  now rewrite (working_unmatched _ _ Hall).
Qed.

Lemma no_threat_only_escapes_witness :
    threats (sanitizeInput (lit "a < b & 'c'")) = []
    /\ sanitized (sanitizeInput (lit "a < b & 'c'"))
       = lit "a &lt; b & &#x27;c&#x27;".
Proof.
  assert (H : threats (sanitizeInput (lit "a < b & 'c'")) = [])
    by (vm_compute; reflexivity).
  split; [exact H |].
  rewrite (proj2 (no_threat_only_escapes (lit "a < b & 'c'")) H).
  vm_compute. reflexivity.
Defined.

(** X11: a text in which no entry matches and which holds none of the
    four escaped characters comes back as it is, with nothing reported. *)
Theorem clean_text_unchanged : forall input : str,
    (forall p, In p DANGEROUS_PATTERNS -> ~ Contains (pattern p) input) ->
    (forall c, In c [LT; GT; QUOT; APOS] -> ~ In c input) ->
    sanitizeInput input = mkResult input [].
Proof.
  intros input Hp Hc.
  pose proof (proj2 (threats_nil_iff input) Hp) as Hth.
  rewrite sanitizeInput_eq in Hth |- *. cbn [threats] in Hth.
  rewrite Hth, (working_unmatched _ _ Hp). now rewrite escape_fixed.
Qed.

Lemma clean_text_unchanged_witness :
    sanitizeInput (lit "plain text") = mkResult (lit "plain text") [].
Proof.
  apply clean_text_unchanged.
  - intros p Hp. apply uncontained_by_eval. simpl in Hp.
    repeat (destruct Hp as [<- | Hp]; [vm_compute; reflexivity |]).
    contradiction.
  - intros c Hc Hi. simpl in Hc.
    repeat (destruct Hc as [<- | Hc]; [vm_compute in Hi; intuition discriminate |]).
    contradiction.
Defined.

Lemma replace_leaves_placeholder : forall q w,
    ~ Match q [] ->
    (exists a b, w = a ++ BLOCKED ++ b) \/ Contains q w ->
    exists a b, fst (replace q w BLOCKED) = a ++ BLOCKED ++ b.
Proof.
  intros q w Hq H.
  pose proof (replace_Replaced q BLOCKED Hq w) as HR.
  change (fst (replace q w BLOCKED))
    with (replace_from (matchAt q) BLOCKED 0 w).
  destruct HR as [s Hn | g u rest out _ _ _ _].
  - destruct H as [H | H]; [exact H | contradiction].
  - now exists g, out.
Qed.

Lemma working_leaves_placeholder : forall ps w,
    Forall (fun p => ~ Match (pattern p) []) ps ->
    (exists a b, w = a ++ BLOCKED ++ b)
    \/ (exists p, In p ps /\ Contains (pattern p) w) ->
    exists a b, working ps w = a ++ BLOCKED ++ b.
Proof.
  intros ps w Hn; revert w; induction Hn as [| p ps Hp _ IH]; intros w H.
  - destruct H as [H | (p & [] & _)]. exact H.
  - change (working (p :: ps) w)
      with (working ps (fst (replace (pattern p) w BLOCKED))).
    apply IH.
    destruct (search (matchAt (pattern p)) w) as [[i r] |] eqn:Hs.
    + left. apply replace_leaves_placeholder; [exact Hp |]. right.
      apply contained_by_eval. now rewrite Hs.
    + apply search_none in Hs.
      assert (E : fst (replace (pattern p) w BLOCKED) = w)
        by (apply (replace_unmatched (pattern p) BLOCKED w Hs)).
      rewrite E. destruct H as [H | (q & [<- | Hq] & Hc)].
      * now left.
      * contradiction.
      * right. now exists q.
Qed.

Lemma subst_app : forall c rep a b,
    subst c rep (a ++ b) = subst c rep a ++ subst c rep b.
Proof. intros. unfold subst. apply flat_map_app. Qed.

Lemma escape_app : forall a b, escape (a ++ b) = escape a ++ escape b.
Proof. intros. rewrite !escape_subst. now rewrite !subst_app. Qed.

(** X12: whenever something is reported, the placeholder stands in the
    sanitized text. *)
Theorem threat_leaves_placeholder : forall input : str,
    threats (sanitizeInput input) <> [] ->
    exists a b, sanitized (sanitizeInput input) = a ++ BLOCKED ++ b.
Proof.
  intros input H.
  assert (Hp : exists p, In p DANGEROUS_PATTERNS
                         /\ Contains (pattern p) input).
  { rewrite sanitizeInput_eq in H. cbn [threats] in H.
    destruct (filter (reports input) DANGEROUS_PATTERNS) as [| p l] eqn:E;
      [easy |].
    assert (Hin : In p (filter (reports input) DANGEROUS_PATTERNS))
      by (rewrite E; now left).
    apply filter_In in Hin. destruct Hin as [Hin Hr].
    exists p. split; [exact Hin |]. now apply reports_reflects. }
  rewrite sanitizeInput_eq. cbn [sanitized].
  destruct (working_leaves_placeholder DANGEROUS_PATTERNS input
              table_nonnull (or_intror Hp)) as (a & b & E).
  rewrite E, !escape_app. now exists (escape a), (escape b).
Qed.

Lemma threat_leaves_placeholder_witness :
    threats (sanitizeInput (lit "<img src=x onerror=1>")) <> []
    /\ exists a b,
         sanitized (sanitizeInput (lit "<img src=x onerror=1>"))
         = a ++ BLOCKED ++ b.
Proof.
  assert (H : threats (sanitizeInput (lit "<img src=x onerror=1>")) <> [])
    by (vm_compute; discriminate).
  split; [exact H |].
  exact (threat_leaves_placeholder (lit "<img src=x onerror=1>") H).
Defined.

(** X13: no entry other than Command Injection finds a match in a
    sanitized text: it holds no script element, no javascript: scheme, no
    event-handler attribute, no quoted or/and comparison, no ../, no
    opening iframe tag and no img tag followed by onerror. *)
Theorem sanitized_free_of_other_entries :
    forall (input : str) (p : ThreatPattern),
    In p DANGEROUS_PATTERNS -> name p <> "Command Injection" ->
    ~ Contains (pattern p) (sanitized (sanitizeInput input)).
Proof.
  intros input p Hp Hn. rewrite sanitizeInput_eq. cbn [sanitized].
  now apply others_silent.
Qed.

Lemma sanitized_free_of_other_entries_witness :
    ~ Contains (gi (text "javascript:"))
        (sanitized (sanitizeInput (lit "java../script: JAVASCRIPT:x"))).
Proof.
  apply (sanitized_free_of_other_entries
           (lit "java../script: JAVASCRIPT:x")
           (mkPattern (gi (text "javascript:")) "JavaScript URI" critical)).
  - simpl. tauto.
  - discriminate.
Defined.

Lemma subst_one : forall c rep x,
    subst c rep [x] = if N.eqb x c then rep else [x].
Proof.
  intros. unfold subst. cbn [flat_map]. rewrite app_nil_r. reflexivity.
Qed.

Lemma escape_one_length : forall x,
    (1 <= List.length (escape [x]) <= 6)%nat.
Proof.
  intros x. rewrite escape_subst, subst_one.
  destruct (N.eqb_spec x LT) as [-> | H1]; [vm_compute; lia |].
  rewrite subst_one.
  destruct (N.eqb_spec x GT) as [-> | H2]; [vm_compute; lia |].
  rewrite subst_one.
  destruct (N.eqb_spec x QUOT) as [-> | H3]; [vm_compute; lia |].
  rewrite subst_one.
  destruct (N.eqb_spec x APOS) as [-> | H4]; [vm_compute; lia |].
  cbn [List.length]. lia.
Qed.

(** X14: escaping works code unit by code unit, so it distributes over
    concatenation; escaping an escaped text changes nothing; and the
    escaped text is at least as long as the text and at most six times as
    long. *)
Theorem escape_laws : forall a b : str,
    escape (a ++ b) = escape a ++ escape b
    /\ escape (escape a) = escape a
    /\ (List.length a <= List.length (escape a) <= 6 * List.length a)%nat.
Proof.
  intros a b. split; [apply escape_app |]. split.
  - apply escape_fixed. intros c Hc. now apply escape_clean.
  - induction a as [| x a IH]; [vm_compute; lia |].
    change (x :: a) with ([x] ++ a). rewrite escape_app, !length_app.
    pose proof (escape_one_length x). simpl List.length. lia.
Qed.

(** X15: a call leaves every RegExp object of the table at [lastIndex]
    0, in whatever state it found them, so from the declared table the
    result of a call does not depend on the calls made before it. *)
Theorem calls_do_not_interfere :
    (forall (ps : list ThreatPattern) (input : str),
        Forall (fun p => lastIndex (pattern p) = O)
               (snd (sanitizeInput_in ps input)))
    /\ (forall input : str,
          snd (sanitizeInput_in DANGEROUS_PATTERNS input)
          = DANGEROUS_PATTERNS)
    /\ (forall inputs : list str,
          calls DANGEROUS_PATTERNS inputs = map sanitizeInput inputs).
Proof.
  split; [| split].
  - intros ps input. unfold sanitizeInput_in.
    generalize (input, @nil string). generalize input at 1.
    induction ps as [| p ps IH]; intros i acc; [constructor |].
    cbn [loop].
    destruct (visit i p acc) as [[w ths] p'] eqn:Hv.
    specialize (IH i (w, ths)).
    destruct (loop ps i (w, ths)) as [[out ths'] ps'] eqn:Hl.
    cbn [snd] in *. constructor; [| exact IH].
    unfold visit in Hv. destruct acc as [w0 t0].
    destruct (test (pattern p) i) as [hit re1].
    unfold replace in Hv. inversion Hv; subst. reflexivity.
  - intros input. now rewrite sanitizeInput_in_table.
  - apply calls_independent.
Qed.

End SanitizerMore.

(* ================================================================== *)
(** ** The sanitizer component *)
(* ================================================================== *)

Section SanitizerUIFacts.

Import Js JsArray Sanitizer SanitizerUI.
Local Open Scope string_scope.
Local Open Scope list_scope.

Lemma threats_nonempty_iff : forall text,
    threats (sanitizeInput text) <> []
    <-> exists p, In p DANGEROUS_PATTERNS /\ Contains (pattern p) text.
Proof.
  intros text. split.
  - intros H. rewrite sanitizeInput_eq in H. cbn [threats] in H.
    destruct (filter (reports text) DANGEROUS_PATTERNS) as [| p l] eqn:E;
      [easy |].
    assert (Hin : In p (filter (reports text) DANGEROUS_PATTERNS))
      by (rewrite E; now left).
    apply filter_In in Hin. destruct Hin as [Hin Hr].
    exists p. split; [exact Hin |]. now apply reports_reflects.
  - intros (p & Hp & Hc) H.
    exact (proj1 (threats_nil_iff text) H p Hp Hc).
Qed.

Lemma sanitizer_run_snoc : forall es e w,
    SanitizerUI.run (es ++ [e]) w
    = SanitizerUI.step e (SanitizerUI.run es w).
Proof. intros. unfold SanitizerUI.run. now rewrite fold_left_app. Qed.

Lemma handleSanitize_on_table : forall c,
    exists l,
      handleSanitize (mkWorld DANGEROUS_PATTERNS c)
      = mkWorld DANGEROUS_PATTERNS
          (mkComponent (input c) (Some (sanitizeInput (input c))) l)
      /\ (List.length l = Nat.min 5 (List.length (logs c)) + 2
          \/ List.length l = Nat.min 5 (List.length (logs c)) + 3)%nat.
Proof.
  intros c. unfold handleSanitize. cbn [component table].
  rewrite sanitizeInput_in_table, <- sanitizeInput_eq.
  eexists. split; [reflexivity |].
  destruct (0 <? List.length (threats (sanitizeInput (input c))))%nat;
    rewrite length_app, length_slice_last; cbn [List.length]; lia.
Qed.

(** X16: whatever is typed, loaded and analysed, the result on display is
    never stale: it is absent or it is the sanitization of the text now in
    the text area (computed on the table as declared); the log holds
    between 2 and 8 lines; and the badge shows "warning" exactly when a
    result is on display and some entry of the table matches the text. *)
Theorem result_never_stale : forall es : list Event,
    table (SanitizerUI.run es SanitizerUI.initial) = DANGEROUS_PATTERNS
    /\ (result (component (SanitizerUI.run es SanitizerUI.initial)) = None
        \/ result (component (SanitizerUI.run es SanitizerUI.initial))
           = Some (sanitizeInput
                     (input (component
                               (SanitizerUI.run es SanitizerUI.initial)))))
    /\ (2 <= List.length
               (logs (component (SanitizerUI.run es SanitizerUI.initial)))
        <= 8)%nat
    /\ (SanitizerUI.status (component (SanitizerUI.run es SanitizerUI.initial))
        = SecurityCard.warning
        <-> result (component (SanitizerUI.run es SanitizerUI.initial))
            <> None
            /\ exists p,
                In p DANGEROUS_PATTERNS
                /\ Contains (pattern p)
                     (input (component
                               (SanitizerUI.run es SanitizerUI.initial)))).
Proof.
  intros es.
  assert (H : table (SanitizerUI.run es SanitizerUI.initial)
              = DANGEROUS_PATTERNS
              /\ (result (component (SanitizerUI.run es SanitizerUI.initial))
                  = None
                  \/ result (component
                               (SanitizerUI.run es SanitizerUI.initial))
                     = Some (sanitizeInput
                               (input (component
                                         (SanitizerUI.run
                                            es SanitizerUI.initial)))))
              /\ (2 <= List.length
                         (logs (component
                                  (SanitizerUI.run es SanitizerUI.initial)))
                  <= 8)%nat).
  { induction es as [| e es IH] using rev_ind.
    - simpl. repeat split; try lia. now left.
    - rewrite sanitizer_run_snoc.
      destruct (SanitizerUI.run es SanitizerUI.initial) as [tb c].
      cbn [table component] in IH. destruct IH as (-> & Hres & Hlen).
      assert (Hs : forall c0,
                 (2 <= List.length (logs c0) <= 8)%nat ->
                 table (handleSanitize (mkWorld DANGEROUS_PATTERNS c0))
                 = DANGEROUS_PATTERNS
                 /\ (result (component
                               (handleSanitize (mkWorld DANGEROUS_PATTERNS c0)))
                     = None
                     \/ result (component
                                  (handleSanitize
                                     (mkWorld DANGEROUS_PATTERNS c0)))
                        = Some (sanitizeInput
                                  (input (component
                                            (handleSanitize
                                               (mkWorld DANGEROUS_PATTERNS
                                                        c0))))))
                 /\ (2 <= List.length
                            (logs (component
                                     (handleSanitize
                                        (mkWorld DANGEROUS_PATTERNS c0))))
                     <= 8)%nat).
      { intros c0 Hl. destruct (handleSanitize_on_table c0) as (l & -> & Hll).
        cbn [table component result input logs].
        split; [reflexivity |]. split; [now right | lia]. }
      destruct e; unfold SanitizerUI.step.
      + unfold loadExample. cbn [table component result logs].
        split; [reflexivity |]. split; [now left | exact Hlen].
      + unfold loadExample. cbn [table component result logs].
        split; [reflexivity |]. split; [now left | exact Hlen].
      + assert (Hp : pressAnalyze (mkWorld DANGEROUS_PATTERNS c)
                     = mkWorld DANGEROUS_PATTERNS c
                     \/ pressAnalyze (mkWorld DANGEROUS_PATTERNS c)
                        = handleSanitize (mkWorld DANGEROUS_PATTERNS c))
          by (unfold pressAnalyze; cbn [component]; destruct (input c); auto).
        destruct Hp as [-> | ->]; [| now apply Hs].
        cbn [table component]. auto.
      + now apply Hs. }
  destruct H as (Ht & Hres & Hlen).
  split; [exact Ht |]. split; [exact Hres |]. split; [exact Hlen |].
  unfold SanitizerUI.status, hasThreat.
  destruct Hres as [-> | ->].
  - split; [discriminate | intros [Hn _]; now contradiction Hn].
  - rewrite <- threats_nonempty_iff.
    destruct (threats (sanitizeInput _)) as [| t l]; cbn [List.length Nat.ltb Nat.leb].
    + split; [discriminate | intros [_ Hn]; now contradiction Hn].
    + split; [intros _; split; discriminate | reflexivity].
Qed.

(** Of the four texts behind the example buttons, three are reported and
    one is not: on the SQL text no entry matches, so analysing it shows the
    badge "protected" and a sanitized text that is only escaped. *)
Example example_attacks_report :
    map (fun e => threats (sanitizeInput e)) EXAMPLE_ATTACKS
    = [ ["XSS Script Tag"]; []; ["Event Handler"; "Image XSS"];
        ["Path Traversal"] ]
    /\ map (fun e =>
              SanitizerUI.status
                (component (SanitizerUI.run [Load e; Analyze]
                                            SanitizerUI.initial)))
           EXAMPLE_ATTACKS
       = [ SecurityCard.warning; SecurityCard.protected;
           SecurityCard.warning; SecurityCard.warning ]
    /\ sanitized (sanitizeInput (lit "'; DROP TABLE users; --"))
       = lit "&#x27;; DROP TABLE users; --".
Proof. repeat split; vm_compute; reflexivity. Qed.

End SanitizerUIFacts.

(* ================================================================== *)
(** ** The security headers panel *)
(* ================================================================== *)

Section HeadersFacts.

Import Js Headers.

(** The updater of [toggleHeader] with the index counted from [k]. *)
Let toggle_from (index k : nat) (a : list SecurityHeader) :=
  mapi_from
    (fun h i =>
       if (i =? index)%nat
       then mkHeader (name h) (value h) (negb (enabled h))
                     (description h) (risk h)
       else h)
    k a.

Lemma toggle_from_past : forall a index k,
    (index < k)%nat -> toggle_from index k a = a.
Proof.
  induction a as [| h a IH]; intros index k H; [reflexivity |].
  unfold toggle_from in *. cbn [mapi_from].
  rewrite (proj2 (Nat.eqb_neq k index)) by lia.
  f_equal. apply IH. lia.
Qed.


Lemma toggle_from_length : forall a index k,
    List.length (toggle_from index k a) = List.length a.
Proof.
  induction a as [| h a IH]; intros index k; [reflexivity |].
  unfold toggle_from in *. cbn [mapi_from List.length]. now rewrite IH.
Qed.

Lemma toggle_from_nth : forall a index k i,
    nth_error (toggle_from index k a) i
    = match nth_error a i with
      | Some h =>
          Some (if (k + i =? index)%nat
                then mkHeader (name h) (value h) (negb (enabled h))
                              (description h) (risk h)
                else h)
      | None => None
      end.
Proof.
  induction a as [| h a IH]; intros index k i.
  - now destruct i.
  - unfold toggle_from in *. cbn [mapi_from]. destruct i as [| i].
    + cbn [nth_error]. now rewrite Nat.add_0_r.
    + cbn [nth_error]. rewrite IH. now rewrite Nat.add_succ_r.
Qed.

Lemma toggle_from_count : forall a index k i h,
    nth_error a i = Some h -> index = (k + i)%nat ->
    (enabledCount (toggle_from index k a) + (if enabled h then 1 else 0)
     = enabledCount a + (if enabled h then 0 else 1))%nat.
Proof.
  induction a as [| x a IH]; intros index k i h Hn Hi.
  - now destruct i.
  - destruct i as [| i]; cbn [nth_error] in Hn.
    + inversion Hn; subst x. subst index.
      unfold toggle_from. cbn [mapi_from]. rewrite Nat.add_0_r, Nat.eqb_refl.
      fold (toggle_from k (S k) a). rewrite toggle_from_past by lia.
      unfold enabledCount. cbn [filter enabled].
      destruct (enabled h); cbn [negb List.length]; lia.
    + unfold toggle_from. cbn [mapi_from].
      rewrite (proj2 (Nat.eqb_neq k index)) by lia.
      fold (toggle_from index (S k) a).
      specialize (IH index (S k) i h Hn ltac:(lia)).
      unfold enabledCount in *. cbn [filter].
      destruct (enabled x); cbn [List.length]; lia.
Qed.



(** X18: a click on a row moves the count of enabled headers by exactly
    one: down when the header was enabled, up when it was not. *)
Theorem toggle_count :
    forall (index : nat) (hs : list SecurityHeader) (h : SecurityHeader),
    nth_error hs index = Some h ->
    enabledCount (toggleHeader index hs)
    = if enabled h then (enabledCount hs - 1)%nat
      else (enabledCount hs + 1)%nat.
Proof.
  intros index hs h Hn.
  pose proof (toggle_from_count hs index 0 index h Hn eq_refl) as H.
  change (toggle_from index 0 hs) with (toggleHeader index hs) in H.
  destruct (enabled h); lia.
Qed.

Lemma toggle_count_witness :
    enabledCount (toggleHeader 2 SECURITY_HEADERS) = 6%nat
    /\ enabledCount (toggleHeader 2 (toggleHeader 5 SECURITY_HEADERS)) = 5%nat.
Proof.
  split.
  - rewrite (toggle_count 2 SECURITY_HEADERS
               (nth 2 SECURITY_HEADERS (mkHeader [] [] true [] []))
               eq_refl).
    reflexivity.
  - vm_compute. reflexivity.
Defined.

Lemma headers_run_snoc : forall es e c,
    Headers.run (es ++ [e]) c = Headers.step e (Headers.run es c).
Proof. intros. unfold Headers.run. now rewrite fold_left_app. Qed.

Lemma headers_length : forall es,
    List.length (headers (Headers.run es Headers.initial)) = 7%nat.
Proof.
  induction es as [| e es IH] using rev_ind; [reflexivity |].
  rewrite headers_run_snoc. destruct e; cbn [Headers.step headers];
    try exact IH.
  change (toggleHeader index) with (toggle_from index 0).
  now rewrite toggle_from_length.
Qed.

(** X19: the panel always lists seven headers, and its badge goes by how
    many are enabled: "protected" with all seven, "warning" with four to
    six, "threat" with three or fewer. *)
Theorem headers_status : forall es : list Event,
    List.length (headers (Headers.run es Headers.initial)) = 7%nat
    /\ (Headers.status (headers (Headers.run es Headers.initial))
        = SecurityCard.protected
        <-> enabledCount (headers (Headers.run es Headers.initial)) = 7%nat)
    /\ (Headers.status (headers (Headers.run es Headers.initial))
        = SecurityCard.warning
        <-> (4 <= enabledCount (headers (Headers.run es Headers.initial))
             <= 6)%nat)
    /\ (Headers.status (headers (Headers.run es Headers.initial))
        = SecurityCard.threat
        <-> (enabledCount (headers (Headers.run es Headers.initial))
             <= 3)%nat).
Proof.
  intros es. pose proof (headers_length es) as Hl.
  split; [exact Hl |].
  assert (Hc : (enabledCount (headers (Headers.run es Headers.initial))
                <= 7)%nat).
  { unfold enabledCount. rewrite <- Hl. apply filter_length_le. }
  unfold Headers.status. rewrite Hl.
  destruct (Nat.eqb_spec
              (enabledCount (headers (Headers.run es Headers.initial))) 7)
    as [E | E].
  - repeat split; intros; try discriminate; try lia.
  - destruct (Nat.leb_spec
                7 (2 * enabledCount
                         (headers (Headers.run es Headers.initial))))
      as [L | L];
      repeat split; intros; try discriminate; try lia; try reflexivity.
Qed.

(** X20: the info panel is never out of date: the header held in
    [selectedHeader] may have been toggled since the mouse entered its
    row, but some row of the current list carries the same name, value,
    description and risk. *)
Theorem selected_text_current :
    forall (es : list Event) (h : SecurityHeader),
    selectedHeader (Headers.run es Headers.initial) = Some h ->
    exists i h',
      nth_error (headers (Headers.run es Headers.initial)) i = Some h'
      /\ name h' = name h /\ value h' = value h
      /\ description h' = description h /\ risk h' = risk h.
Proof.
  induction es as [| e es IH] using rev_ind; intros h; [discriminate |].
  rewrite headers_run_snoc.
  destruct (Headers.run es Headers.initial) as [hs sel].
  cbn [headers selectedHeader] in IH.
  destruct e; cbn [Headers.step headers selectedHeader].
  - intros Hs. destruct (IH h Hs) as (i & h' & Hn & H1 & H2 & H3 & H4).
    change (toggleHeader index) with (toggle_from index 0).
    exists i. rewrite toggle_from_nth, Hn.
    destruct (0 + i =? index)%nat; eexists; split; try reflexivity;
      cbn [name value description risk]; auto.
  - intros Hs. exists index, h. auto.
  - discriminate.
Qed.

Lemma selected_text_current_witness :
    selectedHeader (Headers.run [MouseEnter 1; Click 1] Headers.initial)
    = Some (nth 1 SECURITY_HEADERS (mkHeader [] [] true [] []))
    /\ exists i h',
         nth_error
           (headers (Headers.run [MouseEnter 1; Click 1] Headers.initial)) i
         = Some h'
         /\ name h' = lit "X-Frame-Options".
Proof.
  split; [reflexivity |].
  destruct (selected_text_current
              [MouseEnter 1; Click 1]
              (nth 1 SECURITY_HEADERS (mkHeader [] [] true [] []))
              eq_refl) as (i & h' & Hn & H1 & _).
  exists i, h'. split; [exact Hn | exact H1].
Defined.

End HeadersFacts.

(* ================================================================== *)
(** ** The access gate: storage, hashing and the login flow *)
(* ================================================================== *)

Section AuthFacts.

Import Js Auth.
Local Open Scope N_scope.

Lemma streqb_eq : forall a b, streqb a b = true <-> a = b.
Proof.
  induction a as [| x a IH]; intros [| y b]; simpl;
    try (split; [discriminate | discriminate]); [tauto |].
  rewrite andb_true_iff, N.eqb_eq, IH. split.
  - intros [-> ->]. reflexivity.
  - intros E. inversion E. auto.
Qed.

Lemma streqb_refl : forall a, streqb a a = true.
Proof. intros a. now apply streqb_eq. Qed.

Lemma streqb_neq : forall a b, a <> b -> streqb a b = false.
Proof.
  intros a b H. destruct (streqb a b) eqn:E; [| reflexivity].
  apply streqb_eq in E. contradiction.
Qed.

Lemma flag_set : forall st, isAuthenticated (setAuthenticated true st) = true.
Proof.
  intros st. unfold isAuthenticated, setAuthenticated, getItem, setItem.
  now rewrite !streqb_refl.
Qed.

Lemma flag_cleared : forall st,
    isAuthenticated (setAuthenticated false st) = false.
Proof.
  intros st. unfold isAuthenticated, setAuthenticated, getItem, removeItem.
  now rewrite streqb_refl.
Qed.

(** X21: the storage flag reads back as written: after
    [setAuthenticated(v)] the session is authenticated exactly when [v] is
    true, after [logout] it is not, no other key of the storage is
    touched, and only the exact value "true" counts as authenticated. *)
Theorem auth_flag_roundtrip : forall (st : Storage) (v : bool),
    isAuthenticated (setAuthenticated v st) = v
    /\ isAuthenticated (logout st) = false
    /\ (forall k, k <> AUTH_KEY ->
                  getItem (setAuthenticated v st) k = getItem st k)
    /\ (isAuthenticated st = true
        <-> getItem st AUTH_KEY = Some (lit "true")).
Proof.
  intros st v. split; [| split; [| split]].
  - destruct v; unfold isAuthenticated, setAuthenticated, getItem, setItem,
      removeItem; now rewrite streqb_refl.
  - unfold logout, isAuthenticated, setAuthenticated, getItem, removeItem.
    now rewrite streqb_refl.
  - intros k Hk.
    destruct v; unfold setAuthenticated, getItem, setItem, removeItem;
      now rewrite (streqb_neq k AUTH_KEY Hk).
  - unfold isAuthenticated. destruct (getItem st AUTH_KEY) as [x |].
    + rewrite streqb_eq. split; [now intros -> | now intros [= ->]].
    + split; discriminate.
Qed.

Lemma auth_flag_roundtrip_witness :
    getItem (setAuthenticated true (fun _ => None)) (lit "theme")
    = getItem (fun _ => None) (lit "theme").
Proof.
  apply (proj1 (proj2 (proj2 (auth_flag_roundtrip (fun _ => None) true)))).
  vm_compute. discriminate.
Defined.

Lemma hexDigit_inj : forall a b,
    a < 16 -> b < 16 -> hexDigit a = hexDigit b -> a = b.
Proof.
  intros a b Ha Hb. unfold hexDigit.
  destruct (N.ltb_spec a 10), (N.ltb_spec b 10); lia.
Qed.

Lemma hex_of_byte : forall b,
    b < 256 ->
    padStart 2 48 (toString16 b) = [hexDigit (b / 16); hexDigit (b mod 16)].
Proof.
  intros b Hb. unfold toString16, padStart.
  destruct (N.ltb_spec b 16) as [H | H]; cbn [List.length Nat.sub repeat app].
  - rewrite N.div_small, N.mod_small by exact H. reflexivity.
  - reflexivity.
Qed.

Lemma hashHex_cons : forall b l,
    b < 256 ->
    hashHex (b :: l) = hexDigit (b / 16) :: hexDigit (b mod 16) :: hashHex l.
Proof.
  intros b l Hb. unfold hashHex. cbn [flat_map].
  now rewrite (hex_of_byte b Hb).
Qed.

Lemma hashHex_eq_inv : forall a b : list N,
    Forall (fun x => x < 256) a -> Forall (fun x => x < 256) b ->
    hashHex a = hashHex b -> a = b.
Proof.
  intros a b Ha. revert b. induction Ha as [| x a Hx Ha IH]; intros b Hb.
  - destruct Hb as [| y b Hy Hb]; [reflexivity |].
    rewrite (hashHex_cons y b Hy). discriminate.
  - rewrite (hashHex_cons x a Hx).
    destruct Hb as [| y b Hy Hb]; [discriminate |].
    rewrite (hashHex_cons y b Hy). intros E. inversion E as [[E1 E2 E3]].
    apply hexDigit_inj in E1;
      [| apply N.Div0.div_lt_upper_bound; lia
       | apply N.Div0.div_lt_upper_bound; lia].
    apply hexDigit_inj in E2; [| apply N.mod_lt; lia | apply N.mod_lt; lia].
    f_equal.
    + rewrite (N.div_mod x 16), (N.div_mod y 16) by lia. congruence.
    + now apply (IH b Hb).
Qed.

Lemma hexDigit_range : forall n,
    n < 16 -> 48 <= hexDigit n <= 57 \/ 97 <= hexDigit n <= 102.
Proof.
  intros n Hn. unfold hexDigit. destruct (N.ltb_spec n 10); lia.
Qed.

(** X22: the hexadecimal form of a digest loses nothing: it is made of the
    digits 0-9 and a-f, it is twice as long as the digest, and two byte
    sequences with the same hexadecimal form are the same sequence. *)
Theorem hashHex_injective : forall a b : list N,
    Forall (fun x => x < 256) a -> Forall (fun x => x < 256) b ->
    List.length (hashHex a) = (2 * List.length a)%nat
    /\ Forall (fun c => 48 <= c <= 57 \/ 97 <= c <= 102) (hashHex a)
    /\ (hashHex a = hashHex b -> a = b).
Proof.
  intros a b Ha Hb. split; [| split].
  - induction Ha as [| x a Hx _ IH]; [reflexivity |].
    rewrite (hashHex_cons x a Hx). cbn [List.length]. lia.
  - induction Ha as [| x a Hx _ IH]; [constructor |].
    rewrite (hashHex_cons x a Hx).
    constructor; [| constructor; [| exact IH]]; apply hexDigit_range.
    + apply N.Div0.div_lt_upper_bound; lia.
    + apply N.mod_lt; lia.
  - now apply hashHex_eq_inv.
Qed.

Lemma hashHex_injective_witness :
    List.length (hashHex [0; 171; 255]) = 6%nat
    /\ hashHex [0; 171; 255] = lit "00abff".
Proof.
  assert (Ha : Forall (fun x => x < 256) [0; 171; 255])
    by (repeat constructor).
  split.
  - exact (proj1 (hashHex_injective [0; 171; 255] [] Ha (Forall_nil _))).
  - reflexivity.
Defined.

Variable encode : str -> list N.
Variable digest : list N -> option (list N).
Hypothesis digest_bytes :
  forall data d, digest data = Some d -> Forall (fun x => x < 256) d.

(** X23: a code is accepted exactly when its digest and the digest of the
    access code are both delivered and are the same bytes; in particular
    the access code itself is accepted whenever its digest is delivered,
    and when the digest is refused no code is accepted. *)
Theorem validate_iff_digests_agree : forall code : str,
    (validateAccessCode encode digest code = Some true
     <-> exists d, digest (encode code) = Some d
                   /\ digest (encode ACCESS_CODE) = Some d)
    /\ (forall d, digest (encode ACCESS_CODE) = Some d ->
                  validateAccessCode encode digest ACCESS_CODE = Some true)
    /\ (digest (encode ACCESS_CODE) = None ->
        validateAccessCode encode digest code = None).
Proof.
  intros code. unfold validateAccessCode, hashCode. split; [| split].
  - destruct (digest (encode code)) as [d1 |] eqn:E1.
    + destruct (digest (encode ACCESS_CODE)) as [d2 |] eqn:E2.
      * split.
        -- intros [= H]. apply streqb_eq in H.
           apply (hashHex_eq_inv d1 d2 (digest_bytes _ _ E1)
                                    (digest_bytes _ _ E2)) in H.
           subst. now exists d2.
        -- intros (d & [= ->] & [= ->]). now rewrite streqb_refl.
      * split; [discriminate | intros (d & _ & H); discriminate].
    + split; [discriminate | intros (d & H & _); discriminate].
  - intros d E. rewrite E. now rewrite streqb_refl.
  - intros E. rewrite E. now destruct (digest (encode code)).
Qed.

End AuthFacts.

Lemma validate_iff_digests_agree_witness :
    Auth.validateAccessCode (fun s => s)
      (fun data => Some (map (fun x => x mod 256)%N data)) Auth.ACCESS_CODE
    = Some true.
Proof.
  assert (H : forall data d,
             (fun data => Some (map (fun x => x mod 256)%N data)) data
             = Some d ->
             Forall (fun x => (x < 256)%N) d).
  { intros data d [= <-]. apply Forall_forall. intros x Hx.
    apply in_map_iff in Hx. destruct Hx as (y & <- & _).
    apply N.mod_lt. discriminate. }
  exact (proj1 (proj2 (validate_iff_digests_agree
                         (fun s => s)
                         (fun data => Some (map (fun x => x mod 256)%N data))
                         H Auth.ACCESS_CODE))
               _ eq_refl).
Defined.

Section GateFacts.

Import Js Auth.

Variable encode : str -> list N.
Variable digest : list N -> option (list N).

Lemma gate_run_snoc : forall es e p,
    Auth.run encode digest (es ++ [e]) p
    = Auth.step encode digest e (Auth.run encode digest es p).
Proof. intros. unfold Auth.run. now rewrite fold_left_app. Qed.

(** X24: the page and the storage never disagree: after any typing,
    submitting, signing out and reloading, the dashboard is shown exactly
    when the storage holds the flag. *)
Theorem gate_follows_storage : forall (st : Storage) (es : list Event),
    authenticated (Auth.run encode digest es (mount st))
    = isAuthenticated (storage (Auth.run encode digest es (mount st))).
Proof.
  intros st es. induction es as [| e es IH] using rev_ind; [reflexivity |].
  rewrite gate_run_snoc. destruct (Auth.run encode digest es (mount st)) as [s a c er].
  cbn [authenticated storage] in IH. subst a.
  destruct e; unfold Auth.step; cbn [authenticated storage code].
  - destruct (isAuthenticated s) eqn:Hs; cbn [authenticated storage];
      now rewrite Hs.
  - destruct (isAuthenticated s) eqn:Hs; cbn [authenticated storage];
      [now rewrite Hs |].
    destruct (trim c); cbn [authenticated storage]; [now rewrite Hs |].
    unfold handleSubmit. cbn [code storage authenticated].
    destruct (validateAccessCode encode digest c) as [[|] |];
      cbn [login authenticated storage]; try (now rewrite Hs).
    now rewrite !flag_set.
  - destruct (isAuthenticated s) eqn:Hs; cbn [signOut authenticated storage];
      [now rewrite flag_cleared | now rewrite Hs].
  - reflexivity.
Qed.

(** X25: starting without the flag, a visitor who never types a code that
    validates stays on the login screen, whatever else is done: the flag
    is not set and the dashboard is not shown. *)
Theorem gate_holds : forall (st : Storage) (es : list Event),
    isAuthenticated st = false ->
    (forall v, In (Type_ v) es ->
               validateAccessCode encode digest v <> Some true) ->
    authenticated (Auth.run encode digest es (mount st)) = false
    /\ isAuthenticated (storage (Auth.run encode digest es (mount st))) = false.
Proof.
  intros st es Hst Hes.
  assert (H : authenticated (Auth.run encode digest es (mount st)) = false
              /\ isAuthenticated (storage (Auth.run encode digest es (mount st))) = false
              /\ (code (Auth.run encode digest es (mount st)) = []
                  \/ validateAccessCode encode digest
                       (code (Auth.run encode digest es (mount st))) <> Some true)).
  { induction es as [| e es IH] using rev_ind.
    - cbn. rewrite Hst. auto.
    - assert (Hes' : forall v, In (Type_ v) es ->
                               validateAccessCode encode digest v
                               <> Some true)
        by (intros v Hv; apply Hes, in_or_app; now left).
      specialize (IH Hes'). rewrite gate_run_snoc.
      destruct (Auth.run encode digest es (mount st)) as [s a c er].
      cbn [authenticated storage code] in IH.
      destruct IH as (-> & Hs & Hc).
      destruct e; unfold Auth.step; cbn [authenticated storage code].
      + split; [reflexivity |]. split; [exact Hs |]. right.
        apply Hes, in_elt.
      + destruct (trim c) eqn:Ht; cbn [authenticated storage code];
          [split; [reflexivity | split; [exact Hs | exact Hc]] |].
        unfold handleSubmit. cbn [code storage authenticated].
        destruct (validateAccessCode encode digest c) as [[|] |] eqn:Hv;
          cbn [authenticated storage code];
          try (split; [reflexivity | split; [exact Hs |]]; right;
               rewrite Hv; discriminate).
        destruct Hc as [-> | Hc]; [discriminate Ht | now contradiction Hc].
      + split; [reflexivity | split; [exact Hs | exact Hc]].
      + unfold mount. cbn [authenticated storage code]. rewrite Hs.
        split; [reflexivity | split; [reflexivity | now left]]. }
  destruct H as (H1 & H2 & _). auto.
Qed.

(** X26: typing the access code and submitting opens the dashboard
    whenever its digest is delivered; the session then survives a reload,
    and signing out ends it for good. *)
Theorem access_code_opens : forall (st : Storage) (d : list N),
    digest (encode ACCESS_CODE) = Some d ->
    authenticated (Auth.run encode digest [Type_ ACCESS_CODE; Submit] (mount st)) = true
    /\ authenticated (Auth.run encode digest [Type_ ACCESS_CODE; Submit; Reload] (mount st))
       = true
    /\ authenticated
         (Auth.run encode digest [Type_ ACCESS_CODE; Submit; SignOut; Reload] (mount st))
       = false.
Proof.
  intros st d Hd.
  assert (Hv : validateAccessCode encode digest ACCESS_CODE = Some true).
  { unfold validateAccessCode, hashCode. rewrite Hd. now rewrite streqb_refl. }
  assert (Ht : exists x r, trim ACCESS_CODE = x :: r)
    by (vm_compute; eauto).
  destruct Ht as (x & r & Ht).
  unfold Auth.run, mount. cbn [fold_left Auth.step authenticated code].
  destruct (isAuthenticated st) eqn:Hs;
    cbn [authenticated storage code signOut mount].
  - rewrite Hs. cbn [authenticated storage signOut].
    now rewrite flag_cleared.
  - rewrite Ht. unfold handleSubmit. cbn [code]. rewrite Hv.
    cbn [login authenticated storage signOut mount].
    rewrite !flag_set. cbn [authenticated storage signOut].
    now rewrite flag_cleared.
Qed.

End GateFacts.

Lemma gate_holds_witness :
    Auth.authenticated
      (Auth.run (fun s => s)
         (fun data => Some (map (fun x => x mod 256)%N data))
         [Auth.Type_ (Js.lit "letmein"); Auth.Submit; Auth.Reload;
          Auth.Type_ (Js.lit "  "); Auth.Submit]
         (Auth.mount (fun _ => None)))
    = false.
Proof.
  apply (gate_holds (fun s => s)
           (fun data => Some (map (fun x => x mod 256)%N data))
           (fun _ => None)
           [Auth.Type_ (Js.lit "letmein"); Auth.Submit; Auth.Reload;
            Auth.Type_ (Js.lit "  "); Auth.Submit]).
  - reflexivity.
  - intros v Hv. simpl in Hv.
    destruct Hv as [[= <-] | [Hv | [Hv | [[= <-] | [Hv | []]]]]];
      try discriminate Hv; vm_compute; discriminate.
Defined.

Lemma access_code_opens_witness :
    Auth.authenticated
      (Auth.run (fun s => s)
         (fun data => Some (map (fun x => x mod 256)%N data))
         [Auth.Type_ Auth.ACCESS_CODE; Auth.Submit]
         (Auth.mount (fun _ => None)))
    = true.
Proof.
  exact (proj1 (access_code_opens
                  (fun s => s)
                  (fun data => Some (map (fun x => x mod 256)%N data))
                  (fun _ => None) _ eq_refl)).
Defined.

(* ================================================================== *)
(** ** The CSRF component *)
(* ================================================================== *)

Section CsrfFacts.

Import Js JsArray Csrf.

Lemma csrf_run_snoc : forall es e c,
    Csrf.run (es ++ [e]) c = Csrf.step e (Csrf.run es c).
Proof. intros. unfold Csrf.run. now rewrite fold_left_app. Qed.

Lemma csrf_run_app : forall es fs c,
    Csrf.run (es ++ fs) c = Csrf.run fs (Csrf.run es c).
Proof. intros. unfold Csrf.run. now rewrite fold_left_app. Qed.

Lemma fake_differs : forall s,
    prefixb (lit "csrf_") s = true -> Auth.streqb FAKE_TOKEN s = false.
Proof.
  intros s H. apply prefixb_spec in H. destruct H as (b & ->). reflexivity.
Qed.

(** A generated token begins with csrf_, so it is never the token that
    attack mode installs. *)
Lemma generated_token_is_not_fake : forall r1 r2 : str,
    prefixb (lit "csrf_") (generateToken r1 r2) = true
    /\ generateToken r1 r2 <> FAKE_TOKEN.
Proof.
  intros r1 r2. split; [reflexivity |]. discriminate.
Qed.

Lemma good_initial : forall r1 r2, good (Csrf.initial r1 r2).
Proof.
  intros r1 r2. unfold good, Csrf.initial, sync; cbn.
  repeat split; try lia; try discriminate. intros H. now contradiction H.
Qed.

Lemma good_step : forall e c, good c -> good (Csrf.step e c).
Proof.
  intros e [sv cl iv vr am lg pd] (H1 & H2 & H3 & H4);
    cbn [clientToken attackMode serverToken isValidating pending logs] in *.
  destruct e; unfold good, Csrf.step, validateRequest, resume, rotateToken,
    toggleAttack, sync;
    cbn [clientToken attackMode serverToken isValidating pending logs].
  - destruct iv;
      cbn [clientToken attackMode serverToken isValidating pending logs].
    + repeat split; try tauto; lia.
    + repeat split; try assumption; try discriminate; try reflexivity;
        rewrite length_app, length_slice_last; cbn [List.length]; lia.
  - destruct pd as [[c0 s0] |];
      cbn [clientToken attackMode serverToken isValidating pending logs].
    + repeat split; try assumption; try discriminate;
        try (intros H; now contradiction H);
        rewrite length_app, length_slice_last;
        destruct (Auth.streqb c0 s0); cbn [List.length]; lia.
    + repeat split; try tauto; lia.
  - repeat split; try reflexivity; try tauto;
      rewrite length_app, length_slice_last; cbn [List.length]; lia.
  - repeat split; try assumption; try tauto; lia.
Qed.

Lemma good_run : forall r1 r2 es, good (Csrf.run es (Csrf.initial r1 r2)).
Proof.
  intros r1 r2 es. induction es as [| e es IH] using rev_ind.
  - apply good_initial.
  - rewrite csrf_run_snoc. now apply good_step.
Qed.

(** X27: the form always carries the token that the mode dictates: after
    any submitting, rotating and toggling, the client token is the server
    token when attack mode is off and the fake token when it is on; the
    server token is a generated one; and the log holds between 2 and 8
    lines. *)
Theorem client_token_follows_mode : forall (r1 r2 : str) (es : list Event),
    clientToken (Csrf.run es (Csrf.initial r1 r2))
    = (if attackMode (Csrf.run es (Csrf.initial r1 r2))
       then FAKE_TOKEN
       else serverToken (Csrf.run es (Csrf.initial r1 r2)))
    /\ prefixb (lit "csrf_") (serverToken (Csrf.run es (Csrf.initial r1 r2)))
       = true
    /\ (2 <= List.length (logs (Csrf.run es (Csrf.initial r1 r2))) <= 8)%nat.
Proof.
  intros r1 r2 es. destruct (good_run r1 r2 es) as (H1 & H2 & _ & H4).
  auto.
Qed.

Lemma waiting_run : forall mid c p,
    ~ In Delay mid -> pending c = Some p -> isValidating c = true ->
    pending (Csrf.run mid c) = Some p
    /\ isValidating (Csrf.run mid c) = true.
Proof.
  induction mid as [| e mid IH] using rev_ind; intros c p Hm Hp Hv;
    [auto |].
  rewrite csrf_run_snoc.
  assert (Hm' : ~ In Delay mid)
    by (intros Hi; apply Hm, in_or_app; now left).
  destruct (IH c p Hm' Hp Hv) as [Hp' Hv'].
  destruct e; unfold Csrf.step.
  - rewrite Hv'. auto.
  - exfalso. apply Hm, in_elt.
  - unfold rotateToken, sync. cbn [pending isValidating]. auto.
  - unfold toggleAttack, sync. cbn [pending isValidating]. auto.
Qed.

(** X28: the verdict is the one of the moment of submission: a form
    submitted with attack mode off is approved and one submitted with
    attack mode on is rejected, whatever rotating and toggling happens
    while the request is being validated. *)
Theorem verdict_reflects_submission :
    forall (r1 r2 : str) (es mid : list Event),
    ~ In Delay mid ->
    isValidating (Csrf.run es (Csrf.initial r1 r2)) = false ->
    validationResult
      (Csrf.run (es ++ Submit :: mid ++ [Delay]) (Csrf.initial r1 r2))
    = Some (if attackMode (Csrf.run es (Csrf.initial r1 r2))
            then v_error else v_success).
Proof.
  intros r1 r2 es mid Hm Hv.
  destruct (good_run r1 r2 es) as (H1 & H2 & _ & _).
  change (Submit :: mid ++ [Delay]) with ([Submit] ++ mid ++ [Delay]).
  rewrite !csrf_run_app.
  set (c := Csrf.run es (Csrf.initial r1 r2)) in *.
  assert (Hs : Csrf.run [Submit] c = validateRequest c)
    by (cbn; now rewrite Hv).
  rewrite Hs.
  destruct (waiting_run mid (validateRequest c)
              (clientToken c, serverToken c) Hm eq_refl eq_refl) as [Hp _].
  cbn [Csrf.run fold_left Csrf.step]. unfold resume. rewrite Hp.
  cbn [validationResult]. rewrite H1.
  destruct (attackMode c).
  - now rewrite (fake_differs _ H2).
  - now rewrite streqb_refl.
Qed.

Lemma verdict_reflects_submission_witness :
    ~ In Delay [Rotate (lit "k3x") (lit "9qz"); Attack; Submit]
    /\ isValidating (Csrf.run [Attack] (Csrf.initial (lit "a1") (lit "b2")))
       = false
    /\ validationResult
         (Csrf.run ([Attack] ++ Submit
                      :: [Rotate (lit "k3x") (lit "9qz"); Attack; Submit]
                      ++ [Delay])
                   (Csrf.initial (lit "a1") (lit "b2")))
       = Some v_error.
Proof.
  assert (Hm : ~ In Delay [Rotate (lit "k3x") (lit "9qz"); Attack; Submit])
    by (simpl; intuition discriminate).
  split; [exact Hm |]. split; [reflexivity |].
  exact (verdict_reflects_submission (lit "a1") (lit "b2") [Attack] _ Hm
                                     eq_refl).
Defined.

End CsrfFacts.
